(** * patch: in-place overwrite of a byte range of a binary file

    A shallow embedding of [patch.c] and the properties of its
    argument-to-bytes pipeline: the escape decoder [copystr], the integer
    cascade of [main], the string block of [main], and the effect of one run
    on the file that is patched.

    Conventions.
    - A [char] or [uint8_t] is a [Z]; a [uint64_t] is a [Z] below [2^64] with
      the wrap-around written where the source converts.
    - A pointer into a character array is the list of the bytes from the
      pointer to the end of the array; [p + 1] is the tail.  Reading where
      the list has ended is a read outside the array: such a step has no
      value ([None]).
    - The C library and the host are not part of the repository.  Their
      functions ([strtoll], [wordexp], [getopt], [malloc], [fopen],
      [fseek], [fwrite], [fclose]) are modelled by their documented
      contracts; what the host decides (which files exist, how a path
      expands, what fresh memory holds and how much of it there is, which
      offsets a seek accepts, how many bytes a write takes and how many a
      flush transfers, how [getopt] words its complaints) is a field of
      [world].  [main] is run on the sequence of results of [getopt].
    - [calloc] in [copystr] and [resolve_path] asks for the size of one
      command-line argument and is granted; [malloc] in [main] asks for
      a size that the option [l] chooses and may return a null pointer. *)

From Stdlib Require Import ZArith Lia.
From stdpp Require Import base option list gmap strings pretty.

Local Open Scope Z_scope.

(** ** Characters *)

Definition NUL : Z := 0.          (* '\0' *)
Definition backslash : Z := 92.   (* '\\' *)
Definition char_r : Z := 114.     (* 'r' *)
Definition char_n : Z := 110.     (* 'n' *)
Definition CR : Z := 13.          (* '\r' *)
Definition LF : Z := 10.          (* '\n' *)

(** The bytes of a literal, for examples. *)
Definition chars (s : string) : list Z :=
  (λ a, Z.of_N (Ascii.N_of_ascii a)) <$> String.list_ascii_of_string s.

(** A character sequence that can be the contents of a C string. *)
Definition nul_free (s : list Z) : Prop := Forall (λ c, c ≠ NUL) s.

(** [strlen]: the number of characters before the terminator. *)
Fixpoint strlen (str : list Z) : option nat :=
  match str with
  | [] => None
  | c :: str' => if decide (c = NUL) then Some 0%nat else S <$> strlen str'
  end.

(** The characters before the terminator (what [strcmp], [fopen] and
    [wordexp] see of an argument). *)
Fixpoint c_str (str : list Z) : list Z :=
  match str with
  | [] => []
  | c :: str' => if decide (c = NUL) then [] else c :: c_str str'
  end.

(** [calloc(n, 1)]. *)
Definition calloc (n : nat) : list Z := replicate n 0.

(** [*r = c] for [r] an index into [result]. *)
Definition store (result : list Z) (r : nat) (c : Z) : option (list Z) :=
  if decide (r < length result)%nat then Some (<[r := c]> result) else None.

(** ** [copystr] *)

(** The [while] loop, which runs until [str] points at the terminator.
    [str] is the read pointer, [result] the
    allocated array and [r] the write index into it. *)
Fixpoint copystr_loop (str : list Z) (result : list Z) (r : nat)
  : option (list Z) :=
  match str with
  | [] => None
  | c :: str1 =>
    if decide (c = NUL) then Some result
    else if decide (c = backslash) then
      match str1 with
      | [] => None
      | d :: str2 =>
        if decide (d = char_r) then
          match store result r CR with
          | Some result' => copystr_loop str2 result' (S r)
          | None => None
          end
        else if decide (d = char_n) then
          match store result r LF with
          | Some result' => copystr_loop str2 result' (S r)
          | None => None
          end
        else
          match store result r c with
          | Some result' => copystr_loop str1 result' (S r)
          | None => None
          end
      end
    else
      match store result r c with
      | Some result' => copystr_loop str1 result' (S r)
      | None => None
      end
  end.

Definition copystr (str : list Z) : option (list Z) :=
  len ← strlen str;
  copystr_loop str (calloc (len + 1)) 0.

(** The string that [copystr] returns: the characters of its result up to
    the terminator. *)
Definition decoded (str : list Z) : option (list Z) := c_str <$> copystr str.

(** The escape decoder in the words of its description: a left-to-right
    pass in which backslash-r becomes 0x0D, backslash-n becomes 0x0A and
    every other character, a backslash too, is kept. *)
Fixpoint unescape (s : list Z) : list Z :=
  match s with
  | [] => []
  | c :: s1 =>
    match s1 with
    | [] => [c]
    | d :: s2 =>
      if decide (c = backslash ∧ d = char_r) then CR :: unescape s2
      else if decide (c = backslash ∧ d = char_n) then LF :: unescape s2
      else c :: unescape s1
    end
  end.

(** ** Integers of C *)

Definition uint64 (z : Z) : Z := z mod 2 ^ 64.
Definition uint32 (z : Z) : Z := z mod 2 ^ 32.

(** A [uint64_t] passed where a [long] is expected (two's complement, 64-bit
    [long]). *)
Definition long (z : Z) : Z :=
  if decide (uint64 z < 2 ^ 63) then uint64 z else uint64 z - 2 ^ 64.

Definition LLONG_MAX : Z := 2 ^ 63 - 1.
Definition LLONG_MIN : Z := - 2 ^ 63.

(** C library, [isspace] and [isdigit] in the C locale. *)
Definition isspace (c : Z) : bool := bool_decide (c = 32 ∨ 9 ≤ c ≤ 13).
Definition isdigit (c : Z) : bool := bool_decide (48 ≤ c ≤ 57).

Fixpoint skip_space (s : list Z) : list Z :=
  match s with
  | c :: s' => if isspace c then skip_space s' else s
  | [] => []
  end.

Fixpoint digits (acc : Z) (s : list Z) : Z :=
  match s with
  | c :: s' => if isdigit c then digits (10 * acc + (c - 48)) s' else acc
  | [] => acc
  end.

(** C library, [strtoll(s, NULL, 10)]: white space, an optional sign, the
    longest run of decimal digits; 0 when there is no digit; the nearest of
    [LLONG_MIN] and [LLONG_MAX] when the number is out of range.  It stops
    at the first character that is not a digit, so at the terminator. *)
Definition strtoll (s : list Z) : Z :=
  let s := skip_space s in
  let '(neg, s) :=
    match s with
    | c :: s' =>
      if decide (c = 45) then (true, s')
      else if decide (c = 43) then (false, s')
      else (false, s)
    | [] => (false, s)
    end in
  let n := digits 0 s in
  let x := if neg : bool then - n else n in
  LLONG_MIN `max` (x `min` LLONG_MAX).

Definition integer_for (arg : list Z) : Z := uint64 (strtoll arg).

(** ** [enum data_type] *)

Inductive data_type := type_db | type_dw | type_dd | type_dq | type_str.

#[global] Instance data_type_eq_dec : EqDecision data_type.
Proof. solve_decision. Defined.

(** The enumeration constants: the width in bytes of the integer kinds. *)
Definition enum_value (t : data_type) : Z :=
  match t with
  | type_db => 1 | type_dw => 2 | type_dd => 4 | type_dq => 8 | type_str => 0
  end.

Definition data_type_for (arg : list Z) : data_type :=
  if decide (c_str arg = chars "dw") then type_dw
  else if decide (c_str arg = chars "dd") then type_dd
  else if decide (c_str arg = chars "dq") then type_dq
  else if decide (c_str arg = chars "str") then type_str
  else type_db.

(** ** The integer block of [main] *)

(** The labelled groups of the [switch], in the order of the source. *)
Definition cases : list (data_type * (Z → list Z → list Z)) :=
  [ (type_dq, λ v bytes,
       let bytes := <[7%nat := Z.land (Z.shiftr v 56) 255]> bytes in
       let bytes := <[6%nat := Z.land (Z.shiftr v 48) 255]> bytes in
       let bytes := <[5%nat := Z.land (Z.shiftr v 40) 255]> bytes in
       <[4%nat := Z.land (Z.shiftr v 32) 255]> bytes);
    (type_dd, λ v bytes,
       let bytes := <[3%nat := Z.land (Z.shiftr v 24) 255]> bytes in
       <[2%nat := Z.land (Z.shiftr v 16) 255]> bytes);
    (type_dw, λ v bytes, <[1%nat := Z.land (Z.shiftr v 8) 255]> bytes);
    (type_db, λ v bytes, <[0%nat := Z.land v 255]> bytes) ].

(** [switch] without [break]: control enters at the label that matches and
    runs every group from there on; with no match it goes to [default]. *)
Fixpoint switch {A} (type : data_type) (cs : list (data_type * A)) : list A :=
  match cs with
  | [] => []
  | (label, body) :: cs' =>
    if decide (label = type) then body :: (snd <$> cs') else switch type cs'
  end.

(** [uint8_t bytes[8] = { 0 }] after the [switch]. *)
Definition int_bytes (type : data_type) (v : Z) : list Z :=
  foldl (λ bytes body, body v bytes) (replicate 8 0) (switch type cases).

(** The little-endian encoding of [x] in [width] bytes, the least
    significant byte first; bits of [x] above [8 * width] are dropped. *)
Definition little_endian (width : Z) (x : Z) : list Z :=
  Z_to_little_endian width 8 x.

(** ** The host *)

Record world := {
  files : gmap (list Z) (list Z);   (* the files that [fopen] can open "r+" *)
  wordexp : list Z → list (list Z); (* the words a path expands to *)
  fresh : nat → Z;                  (* what memory from [malloc] holds *)
  room : nat;                       (* how many bytes [fwrite] takes *)
  heap : positive;                  (* the largest size [malloc] grants *)
  seek_max : Z;                     (* the largest offset [fseek] accepts *)
  flush : nat;                      (* how many bytes the flush of [fclose]
                                       transfers *)
  diagnostic : list Z → string      (* the line of [getopt] for an option
                                       it refuses *)
}.

(** [malloc(n)]: [n] bytes that were not initialised, or a null pointer
    ([None]) when the host does not have them.  The size is the [size_t]
    that the caller computed.  The host has one byte at least. *)
Definition malloc (w : world) (n : Z) : option (list Z) :=
  if decide (n ≤ Z.pos (heap w))
  then Some (fresh w <$> seq 0 (Z.to_nat n))
  else None.

(** [memset(s, c, n)]; filling more than the array holds is undefined. *)
Definition memset (s : list Z) (c : Z) (n : Z) : option (list Z) :=
  if decide (n ≤ Z.of_nat (length s))
  then Some (replicate (Z.to_nat n) c ++ drop (Z.to_nat n) s)
  else None.

(** [memcpy(dst, src, n)]; undefined beyond either array. *)
Definition memcpy (dst src : list Z) (n : Z) : option (list Z) :=
  if decide (n ≤ Z.of_nat (length dst) ∧ n ≤ Z.of_nat (length src))
  then Some (take (Z.to_nat n) src ++ drop (Z.to_nat n) dst)
  else None.

Definition resolve_path (w : world) (path : list Z) : option (list Z) :=
  match wordexp w (c_str path) with
  | [] => None
  | word :: _ =>
    let we_wordv0 := c_str word ++ [NUL] in
    len ← strlen we_wordv0;
    memcpy (calloc (len + 1)) we_wordv0 (Z.of_nat len)
  end.

(** ** The string block of [main] *)

(** [buffer] after [malloc], [memset] and [memcpy].  The result of
    [malloc] is not looked at: a null pointer comes back only for a size
    of two bytes or more, and [memset] is then to fill one byte or more
    through it, which is undefined. *)
Definition str_buffer (w : world) (data_in : list Z) (length : Z)
    (pad_value : Z) : option (list Z) :=
  len ← strlen data_in;
  let data_in_len := uint32 (Z.of_nat len) in
  buffer ← malloc w (uint64 (length + 1));
  buffer ← memset buffer pad_value length;
  memcpy buffer data_in
    (if decide (data_in_len > length) then length else data_in_len).



(** ** Files *)

(** A file is the list of its bytes.  Writing [data] at [pos] overwrites in
    place and extends the file when it reaches past its end; a gap between
    the old end and [pos] reads as zeros.  Writing nothing changes nothing. *)
Definition write_at (f : list Z) (pos : Z) (data : list Z) : list Z :=
  match data with
  | [] => f
  | _ =>
    let p := Z.to_nat pos in
    take p f ++ replicate (p - length f) 0 ++ data
      ++ drop (p + length data) f
  end.

(** [fseek(fp, offset, SEEK_SET)], with [offset] the [long] it receives:
    the new position and the value returned.  A negative offset fails (POSIX:
    [EINVAL], the resulting position would be negative), and so does an
    offset beyond what the file system of the host takes; a seek that fails
    leaves the position where it was. *)
Definition fseek (w : world) (pos : Z) (offset : Z) : Z * Z :=
  if decide (0 ≤ offset ≤ seek_max w) then (offset, 0) else (pos, -1).

(** What [fwrite(ptr, 1, nmemb, fp)] returns: the number of bytes
    it took, all of them unless the host takes fewer. *)
Definition fwrite (w : world) (nmemb : Z) : Z := nmemb `min` Z.of_nat (room w).

(** The stream has a buffer.  When [fwrite] returns the whole count the
    bytes may still be in it: [fclose] flushes them, and of [n] bytes the
    flush transfers [flushed w n] to the file.  [fclose] reports a flush
    that fell short in the value it returns. *)
Definition flushed (w : world) (n : Z) : Z := n `min` Z.of_nat (flush w).

(** The calls made on the stream, in order. *)
Inductive call :=
| Fopen (path : list Z) (opened : bool)
| Fseek (offset : Z) (ret : Z)
| Fwrite (ptr : list Z) (nmemb : Z) (ret : Z)
| Fclose.

#[global] Instance call_eq_dec : EqDecision call.
Proof. solve_decision. Defined.

(** ** [main] *)

(** The local variables of [main] that the option loop sets.  A pointer
    that may be [NULL] is an [option]. *)
Record locals := {
  m_file : option (list Z);
  m_offset : Z;
  m_type : data_type;
  m_length : Z;
  m_pad_value : Z;
  m_data_in : option (list Z)
}.

(** The initialisers of the declarations. *)
Definition initial : locals :=
  {| m_file := None; m_offset := 0; m_type := type_db; m_length := 1;
     m_pad_value := 0; m_data_in := None |}.

(** The array that holds an argument: its characters and the terminator. *)
Definition argument (optarg : list Z) : list Z := optarg ++ [NUL].

Definition banner : string :=
  "patch tool v0.1 -- Copyright (c) 2019 Tom Hancocks".

(** One round of the [while ((c = getopt (...)) != -1)] loop: [c] is what
    [getopt] returned and [optarg] the characters of the option's argument.
    The state is the locals and the lines printed so far; [None] is
    undefined behaviour. *)
Definition option_case (w : world) (st : locals * list string)
    (o : Z * list Z) : option (locals * list string) :=
  let '(l, out) := st in
  let '(c, optarg) := o in
  let optarg := argument optarg in
  if decide (c = 102) then                     (* 'f' *)
    file ← resolve_path w optarg;
    Some ({| m_file := Some file; m_offset := m_offset l;
             m_type := m_type l; m_length := m_length l;
             m_pad_value := m_pad_value l; m_data_in := m_data_in l |}, out)
  else if decide (c = 97) then                 (* 'a' *)
    Some ({| m_file := m_file l; m_offset := integer_for optarg;
             m_type := m_type l; m_length := m_length l;
             m_pad_value := m_pad_value l; m_data_in := m_data_in l |}, out)
  else if decide (c = 116) then                (* 't' *)
    Some ({| m_file := m_file l; m_offset := m_offset l;
             m_type := data_type_for optarg; m_length := m_length l;
             m_pad_value := m_pad_value l; m_data_in := m_data_in l |}, out)
  else if decide (c = 108) then                (* 'l' *)
    Some ({| m_file := m_file l; m_offset := m_offset l;
             m_type := m_type l; m_length := integer_for optarg;
             m_pad_value := m_pad_value l; m_data_in := m_data_in l |}, out)
  else if decide (c = 112) then                (* 'p' *)
    Some ({| m_file := m_file l; m_offset := m_offset l;
             m_type := m_type l; m_length := m_length l;
             m_pad_value := Z.land (integer_for optarg) 255;
             m_data_in := m_data_in l |}, out)
  else if decide (c = 100) then                (* 'd' *)
    data_in ← copystr optarg;
    Some ({| m_file := m_file l; m_offset := m_offset l;
             m_type := m_type l; m_length := m_length l;
             m_pad_value := m_pad_value l; m_data_in := Some data_in |}, out)
  else if decide (c = 118) then                (* 'v' *)
    Some (l, out ++ [banner])
  else Some (l, out).

(** The whole loop over what [getopt] returns for the argument vector. *)
Fixpoint scan (w : world) (st : locals * list string)
    (argv : list (Z * list Z)) : option (locals * list string) :=
  match argv with
  | [] => Some st
  | o :: argv' =>
    match option_case w st o with
    | Some st' => scan w st' argv'
    | None => None
    end
  end.

(** How a run ends: [main] returns a code, or the run has no defined end. *)
Inductive status := Returned (code : Z) | Undefined.

#[global] Instance status_eq_dec : EqDecision status.
Proof. solve_decision. Defined.

Record outcome := {
  exit_status : status;
  stdout : list string;            (* the lines [main] prints with [printf] *)
  stderr : list string;            (* the lines [main] prints with
                                      [fprintf (stderr, ...)] *)
  calls : list call;               (* the calls on the stream, in order *)
  files_after : gmap (list Z) (list Z)
}.

Definition short_write (r : Z) : string :=
  "Something went wrong when patching file. Wrote "
    +:+ pretty (Z.to_N r) +:+ " bytes.".

(** The file [path] after the first [r] bytes of [ptr] were transferred to
    it at position [pos]. *)
Definition patched (w : world) (path content : list Z) (pos : Z)
    (ptr : list Z) (r : Z) : gmap (list Z) (list Z) :=
  <[path := write_at content pos (take (Z.to_nat r) ptr)]> (files w).

(** [main], from the end of the option loop.  Each line of [stderr] is one
    [fprintf], without its newline.  On the path that returns 3 the bytes
    that [fwrite] counted are in the file; on the path that returns 0 the
    file has what the flush of [fclose] transferred, and the value that
    [fclose] returns is dropped. *)
Definition patch (w : world) (l : locals) (out : list string) : outcome :=
  match m_file l with
  | None =>
    {| exit_status := Returned 1; stdout := out;
       stderr := ["No binary file supplied."];
       calls := []; files_after := files w |}
  | Some file =>
    let path := c_str file in
    match files w !! path with
    | None =>
      {| exit_status := Returned 2; stdout := out;
         stderr := ["Failed to open specified binary file."];
         calls := [Fopen path false]; files_after := files w |}
    | Some content =>
      let '(pos, ret) := fseek w 0 (long (m_offset l)) in
      let begun := [Fopen path true; Fseek (long (m_offset l)) ret] in
      let undefined :=
        {| exit_status := Undefined; stdout := out; stderr := [];
           calls := begun; files_after := files w |} in
      if decide (m_type l ≠ type_str) then
        match m_data_in l with
        | None => undefined
        | Some data_in =>
          let bytes := int_bytes (m_type l) (integer_for data_in) in
          let type := enum_value (m_type l) in
          let r := fwrite w type in
          if decide (r ≠ type) then
            {| exit_status := Returned 3; stdout := out;
               stderr := [short_write r];
               calls := begun ++ [Fwrite bytes type r];
               files_after := patched w path content pos bytes r |}
          else
            {| exit_status := Returned 0; stdout := out; stderr := [];
               calls := begun ++ [Fwrite bytes type r; Fclose];
               files_after :=
                 patched w path content pos bytes (flushed w r) |}
        end
      else
        match m_data_in l with
        | None => undefined
        | Some data_in =>
          match str_buffer w data_in (m_length l) (m_pad_value l) with
          | None => undefined
          | Some buffer =>
            let r := fwrite w (m_length l) in
            if decide (r ≠ m_length l) then
              {| exit_status := Returned 3; stdout := out;
                 stderr := [short_write r];
                 calls := begun ++ [Fwrite buffer (m_length l) r];
                 files_after := patched w path content pos buffer r |}
            else
              {| exit_status := Returned 0; stdout := out; stderr := [];
                 calls := begun ++ [Fwrite buffer (m_length l) r; Fclose];
                 files_after :=
                   patched w path content pos buffer (flushed w r) |}
          end
        end
    end
  end.

Definition main (w : world) (argv : list (Z * list Z)) : outcome :=
  match scan w (initial, []) argv with
  | None =>
    {| exit_status := Undefined; stdout := []; stderr := [];
       calls := []; files_after := files w |}
  | Some (l, out) => patch w l out
  end.

(** The results of [getopt] with the letter [c], and without it. *)
Definition with_letter (c : Z) (o : Z * list Z) : Prop := o.1 = c.
Definition without_letter (c : Z) (o : Z * list Z) : Prop := o.1 ≠ c.

#[global] Instance with_letter_dec c o : Decision (with_letter c o).
Proof. unfold with_letter. apply _. Defined.

#[global] Instance without_letter_dec c o : Decision (without_letter c o).
Proof. unfold without_letter. apply _. Defined.



(** The host after a run: the files are those the run left. *)
Definition after (w : world) (o : outcome) : world :=
  {| files := files_after o; wordexp := wordexp w; fresh := fresh w;
     room := room w; heap := heap w; seek_max := seek_max w;
     flush := flush w; diagnostic := diagnostic w |}.

(** ** Examples of hosts and argument vectors *)

(** A host with one file [x], in which a path expands to itself; it grants
    4096 bytes of memory, seeks up to [2^40] and flushes as many bytes as
    it takes. *)
Definition host (content : list Z) (room : nat) : world :=
  {| files := {[ chars "x" := content ]};
     wordexp := λ p, [p]; fresh := λ _, 170; room := room;
     heap := 4096; seek_max := 2 ^ 40; flush := room;
     diagnostic := λ o, "patch: invalid option" |}.

(** The same host with a disk that is full when the stream is flushed. *)
Definition full_at_flush (w : world) : world :=
  {| files := files w; wordexp := wordexp w; fresh := fresh w;
     room := room w; heap := heap w; seek_max := seek_max w;
     flush := 0; diagnostic := diagnostic w |}.

(** An option and its argument as [getopt] returns them. *)
Definition opt (c arg : string) : Z * list Z :=
  (default 63 (head (chars c)), chars arg).


(** ** Notions for the statements *)

(** What [data_in] points to, when it is set, is a terminated string. *)
Definition data_in_ok (l : locals) : Prop :=
  ∀ data_in, m_data_in l = Some data_in →
    ∃ s t, data_in = s ++ NUL :: t ∧ nul_free s.

(** The argument vector has an option [f]. *)
Definition has_f (argv : list (Z * list Z)) : Prop :=
  Exists (λ o, o.1 = 102) argv.

(** What the integer block or the string block hands to [fwrite]: the
    array and the count. *)
Definition handed (w : world) (l : locals) (ptr : list Z) (n : Z) : Prop :=
  (m_type l ≠ type_str
   ∧ ∃ data_in, m_data_in l = Some data_in
       ∧ ptr = int_bytes (m_type l) (integer_for data_in)
       ∧ n = enum_value (m_type l))
  ∨ (m_type l = type_str
     ∧ ∃ data_in, m_data_in l = Some data_in
         ∧ str_buffer w data_in (m_length l) (m_pad_value l) = Some ptr
         ∧ n = m_length l).

(** The unsigned locals are within their types. *)
Definition ranges_ok (l : locals) : Prop :=
  0 ≤ m_offset l < 2 ^ 64 ∧ 0 ≤ m_length l < 2 ^ 64
  ∧ 0 ≤ m_pad_value l < 2 ^ 8.

(** ** Notions for the properties of the option loop and of the host *)

(** The option letters of the [switch] in [main]: f, a, t, l, p, d, v. *)
Definition known_option (o : Z * list Z) : Prop :=
  o.1 ∈ [102; 97; 116; 108; 112; 100; 118].

#[global] Instance known_option_dec o : Decision (known_option o).
Proof. unfold known_option. apply _. Defined.

(** The same host with other contents of fresh memory. *)
Definition with_fresh (w : world) (f : nat → Z) : world :=
  {| files := files w; wordexp := wordexp w; fresh := f; room := room w;
     heap := heap w; seek_max := seek_max w; flush := flush w;
     diagnostic := diagnostic w |}.

(** How many bytes of the array are in the file at the end of a run that
    asked [fwrite] for [n]: the count that [fwrite] returned when it was
    short, and otherwise what the flush of [fclose] transferred. *)
Definition reached (w : world) (n : Z) : Z :=
  if decide (fwrite w n ≠ n) then fwrite w n else flushed w (fwrite w n).

(** A byte. *)
Definition is_byte (b : Z) : Prop := 0 ≤ b < 256.


(** An option other than l and p. *)
Definition not_length_or_pad (o : Z * list Z) : Prop :=
  o.1 ≠ 108 ∧ o.1 ≠ 112.

#[global] Instance not_length_or_pad_dec o : Decision (not_length_or_pad o).
Proof. unfold not_length_or_pad. apply _. Defined.

(** Locals that agree but for the length and the pad value. *)
Definition agree_but_length_pad (l l' : locals) : Prop :=
  m_file l = m_file l' ∧ m_offset l = m_offset l'
  ∧ m_type l = m_type l' ∧ m_data_in l = m_data_in l'.

(** What [strtoll] does with a number out of range. *)
Definition saturate (z : Z) : Z := LLONG_MIN `max` (z `min` LLONG_MAX).

(** * Properties *)

Implicit Types (s t str optarg data_in : list Z) (c d p : Z).
Implicit Types (w : world) (l : locals) (argv : list (Z * list Z)).

(** ** C strings *)

Create HintDb cstring discriminated.

Lemma nul_free_cons c s : nul_free (c :: s) ↔ c ≠ NUL ∧ nul_free s.
Proof. exact (Forall_cons (λ c, c ≠ NUL) c s). Qed.

Lemma nul_free_app s t : nul_free (s ++ t) ↔ nul_free s ∧ nul_free t.
Proof. exact (Forall_app (λ c, c ≠ NUL) s t). Qed.

Lemma strlen_terminated s t :
  nul_free s → strlen (s ++ NUL :: t) = Some (length s).
Proof.
  induction s as [|c s IH]; [done|].
  intros [Hc Hs]%nul_free_cons. cbn [strlen app].
  rewrite decide_False by done. by rewrite IH.
Qed.

Lemma c_str_terminated s t : nul_free s → c_str (s ++ NUL :: t) = s.
Proof.
  induction s as [|c s IH]; [done|].
  intros [Hc Hs]%nul_free_cons. cbn [c_str app].
  rewrite decide_False by done. by rewrite IH.
Qed.

Lemma c_str_nul_free str : nul_free (c_str str).
Proof.
  induction str as [|c str IH]; cbn [c_str]; [constructor|].
  case_decide; by constructor.
Qed.

Lemma c_str_argument s : c_str (argument s) = c_str s.
Proof.
  unfold argument. induction s as [|c s IH]; [done|].
  cbn [c_str app]. case_decide; by rewrite ?IH.
Qed.

#[local] Hint Resolve c_str_nul_free : cstring.

(** An argument always holds a terminated string: the characters up to the
    first [NUL] of [s], or all of [s]. *)
Lemma argument_terminated s :
  ∃ t, argument s = c_str s ++ NUL :: t.
Proof.
  unfold argument. induction s as [|c s [t IH]].
  - by exists [].
  - cbn [c_str app]. case_decide as Hc.
    + exists (s ++ [NUL]). by rewrite Hc.
    + exists t. by rewrite IH.
Qed.

(** ** The escape decoder *)

(** Induction that follows the two-character look-ahead of the decoder. *)
Lemma lookahead_ind (P : list Z → Prop) :
  P [] → (∀ c, P [c]) →
  (∀ c d s, P s → P (d :: s) → P (c :: d :: s)) →
  ∀ s, P s.
Proof.
  intros Hnil Hone Hstep s.
  cut (P s ∧ ∀ c, P (c :: s)); [tauto|].
  induction s as [|d s [IH1 IH2]]; split; auto.
Qed.

Lemma unescape_cons_cons c d s :
  unescape (c :: d :: s) =
    if decide (c = backslash ∧ d = char_r) then CR :: unescape s
    else if decide (c = backslash ∧ d = char_n) then LF :: unescape s
    else c :: unescape (d :: s).
Proof. reflexivity. Qed.

Lemma unescape_length_le s : (length (unescape s) ≤ length s)%nat.
Proof.
  induction s as [| |c d s IH1 IH2] using lookahead_ind; [done..|].
  rewrite unescape_cons_cons.
  repeat case_decide; cbn [length] in *; lia.
Qed.

Lemma unescape_length_ge s : (length s ≤ 2 * length (unescape s))%nat.
Proof.
  induction s as [| |c d s IH1 IH2] using lookahead_ind;
    [cbn; lia..|].
  rewrite unescape_cons_cons.
  repeat case_decide; cbn [length] in *; lia.
Qed.

Lemma unescape_nul_free s : nul_free s → nul_free (unescape s).
Proof.
  induction s as [| |c d s IH1 IH2] using lookahead_ind; [done..|].
  intros (Hc & Hds)%nul_free_cons.
  pose proof Hds as [Hd Hs]%nul_free_cons.
  rewrite unescape_cons_cons.
  repeat case_decide; apply nul_free_cons; split; auto; done.
Qed.

#[local] Hint Resolve unescape_nul_free : cstring.

Lemma store_here pre x z zs :
  store (pre ++ z :: zs) (length pre) x = Some ((pre ++ [x]) ++ zs).
Proof.
  unfold store. rewrite decide_True.
  - rewrite insert_app_r_alt, Nat.sub_diag by lia.
    by rewrite <- app_assoc.
  - rewrite length_app. cbn [length]. lia.
Qed.

Lemma length_snoc (pre : list Z) x : S (length pre) = length (pre ++ [x]).
Proof. rewrite length_app. cbn [length]. lia. Qed.

(** One round of the loop, by what the read pointer sees. *)
Lemma copystr_loop_eq str result r :
  copystr_loop str result r =
    match str with
    | [] => None
    | c :: str1 =>
      if decide (c = NUL) then Some result
      else if decide (c = backslash) then
        match str1 with
        | [] => None
        | d :: str2 =>
          if decide (d = char_r) then
            result' ← store result r CR; copystr_loop str2 result' (S r)
          else if decide (d = char_n) then
            result' ← store result r LF; copystr_loop str2 result' (S r)
          else
            result' ← store result r c; copystr_loop str1 result' (S r)
        end
      else result' ← store result r c; copystr_loop str1 result' (S r)
    end.
Proof. by destruct str. Qed.

Lemma copystr_loop_nul t result r :
  copystr_loop (NUL :: t) result r = Some result.
Proof. rewrite copystr_loop_eq. by rewrite decide_True. Qed.

Lemma copystr_loop_cr str2 result r :
  copystr_loop (backslash :: char_r :: str2) result r =
    result' ← store result r CR; copystr_loop str2 result' (S r).
Proof. by rewrite copystr_loop_eq. Qed.

Lemma copystr_loop_lf str2 result r :
  copystr_loop (backslash :: char_n :: str2) result r =
    result' ← store result r LF; copystr_loop str2 result' (S r).
Proof. by rewrite copystr_loop_eq. Qed.

Lemma copystr_loop_backslash d str2 result r :
  d ≠ char_r → d ≠ char_n →
  copystr_loop (backslash :: d :: str2) result r =
    result' ← store result r backslash;
    copystr_loop (d :: str2) result' (S r).
Proof.
  intros Hr Hn. rewrite copystr_loop_eq.
  rewrite (decide_False (P := backslash = NUL)) by done.
  rewrite (decide_True (P := backslash = backslash)) by done.
  by rewrite (decide_False (P := d = char_r)),
    (decide_False (P := d = char_n)).
Qed.

Lemma copystr_loop_plain c str1 result r :
  c ≠ NUL → c ≠ backslash →
  copystr_loop (c :: str1) result r =
    result' ← store result r c; copystr_loop str1 result' (S r).
Proof.
  intros H0 Hb. rewrite copystr_loop_eq.
  by rewrite (decide_False (P := c = NUL)),
    (decide_False (P := c = backslash)).
Qed.

Lemma store_next pre x z zs (k : list Z → nat → option (list Z)) :
  (result' ← store (pre ++ z :: zs) (length pre) x;
   k result' (S (length pre)))
    = k ((pre ++ [x]) ++ zs) (length (pre ++ [x])).
Proof. by rewrite store_here, <- length_snoc. Qed.

(** The loop writes the decoded characters one after another from the write
    index on and touches nothing else of the array; it ends at the
    terminator of the argument. *)
Lemma copystr_loop_unescape s :
  nul_free s → ∀ t pre zs,
  (length (unescape s) ≤ length zs)%nat →
  copystr_loop (s ++ NUL :: t) (pre ++ zs) (length pre)
    = Some (pre ++ unescape s ++ drop (length (unescape s)) zs).
Proof.
  induction s as [| |c d s IH1 IH2] using lookahead_ind.
  - intros _ t pre zs _. cbn [app]. by rewrite copystr_loop_nul.
  - intros [Hc _]%nul_free_cons t pre [|z zs] Hlen;
      cbn [unescape length] in Hlen; [lia|].
    cbn [app unescape length drop].
    destruct (decide (c = backslash)) as [->|Hbs].
    + rewrite copystr_loop_backslash by done.
      rewrite (store_next pre backslash z zs (copystr_loop (NUL :: t))).
      by rewrite copystr_loop_nul, <- app_assoc.
    + rewrite copystr_loop_plain by done.
      rewrite (store_next pre c z zs (copystr_loop (NUL :: t))).
      by rewrite copystr_loop_nul, <- app_assoc.
  - intros (Hc & Hds)%nul_free_cons t pre zs Hlen.
    pose proof Hds as [Hd Hs]%nul_free_cons.
    rewrite unescape_cons_cons in Hlen |- *.
    destruct zs as [|z zs];
      [repeat case_decide; cbn [length] in Hlen; lia|].
    change ((c :: d :: s) ++ NUL :: t) with (c :: d :: (s ++ NUL :: t)).
    destruct (decide (c = backslash)) as [->|Hbs].
    + destruct (decide (d = char_r)) as [->|Hr].
      * rewrite decide_True in Hlen |- * by done. cbn [length] in Hlen.
        rewrite copystr_loop_cr.
        rewrite (store_next pre CR z zs (copystr_loop (s ++ NUL :: t))).
        rewrite IH1 by (done || lia). by rewrite <- app_assoc.
      * rewrite (decide_False (P := _ ∧ d = char_r)) in Hlen |- * by tauto.
        destruct (decide (d = char_n)) as [->|Hn].
        -- rewrite decide_True in Hlen |- * by done. cbn [length] in Hlen.
           rewrite copystr_loop_lf.
           rewrite (store_next pre LF z zs (copystr_loop (s ++ NUL :: t))).
           rewrite IH1 by (done || lia). by rewrite <- app_assoc.
        -- rewrite decide_False in Hlen |- * by tauto. cbn [length] in Hlen.
           rewrite copystr_loop_backslash by done.
           rewrite (store_next pre backslash z zs
                      (copystr_loop (d :: s ++ NUL :: t))).
           change (d :: s ++ NUL :: t) with ((d :: s) ++ NUL :: t).
           rewrite IH2 by (done || lia). by rewrite <- app_assoc.
    + rewrite !decide_False in Hlen |- * by tauto. cbn [length] in Hlen.
      rewrite copystr_loop_plain by done.
      rewrite (store_next pre c z zs (copystr_loop (d :: s ++ NUL :: t))).
      change (d :: s ++ NUL :: t) with ((d :: s) ++ NUL :: t).
      rewrite IH2 by (done || lia). by rewrite <- app_assoc.
Qed.

(** [copystr] returns the array of [strlen + 1] bytes that holds the decoded
    string followed by zeros. *)
Lemma copystr_unescape s t :
  nul_free s →
  copystr (s ++ NUL :: t)
    = Some (unescape s
            ++ replicate (length s + 1 - length (unescape s)) NUL).
Proof.
  intros Hs. unfold copystr. rewrite strlen_terminated by done.
  cbn [mbind option_bind].
  pose proof (unescape_length_le s) as Hle.
  pose proof (copystr_loop_unescape s Hs t [] (calloc (length s + 1))) as H.
  cbn [app length] in H. rewrite H.
  - unfold calloc. by rewrite drop_replicate.
  - unfold calloc. rewrite length_replicate. lia.
Qed.

Lemma copystr_result s t :
  nul_free s →
  ∃ k, copystr (s ++ NUL :: t) = Some (unescape s ++ NUL :: replicate k NUL).
Proof.
  intros Hs. pose proof (unescape_length_le s) as Hle.
  exists (length s - length (unescape s))%nat.
  rewrite copystr_unescape by done.
  by replace (length s + 1 - length (unescape s))%nat
    with (S (length s - length (unescape s))) by lia.
Qed.

Lemma decoded_unescape s t :
  nul_free s → decoded (s ++ NUL :: t) = Some (unescape s).
Proof.
  intros Hs. unfold decoded.
  destruct (copystr_result s t Hs) as [k ->]. cbn [fmap option_fmap option_map].
  by rewrite c_str_terminated by auto with cstring.
Qed.

Lemma unescape_no_backslash s : backslash ∉ s → unescape s = s.
Proof.
  induction s as [| |c d s IH1 IH2] using lookahead_ind; [done..|].
  intros Hnot. rewrite unescape_cons_cons.
  assert (c ≠ backslash) by (intros ->; apply Hnot; left).
  rewrite !decide_False by tauto.
  rewrite IH2; [done|]. intros Hin. apply Hnot. by right.
Qed.

Lemma unescape_snoc_backslash s :
  unescape (s ++ [backslash]) = unescape s ++ [backslash].
Proof.
  induction s as [| |c d s IH1 IH2] using lookahead_ind.
  - done.
  - cbn [app]. rewrite unescape_cons_cons.
    by rewrite !decide_False by (intros [_ [=]]).
  - change ((c :: d :: s) ++ [backslash])
      with (c :: d :: (s ++ [backslash])).
    rewrite !unescape_cons_cons.
    change (d :: s ++ [backslash]) with ((d :: s) ++ [backslash]).
    rewrite IH1, IH2. by repeat case_decide.
Qed.

(** A backslash is never the second character of an escape: decoding
    splits in front of every backslash. *)
Lemma unescape_app_backslash s1 s2 :
  unescape (s1 ++ backslash :: s2)
    = unescape s1 ++ unescape (backslash :: s2).
Proof.
  induction s1 as [| |c d s IH1 IH2] using lookahead_ind.
  - done.
  - cbn [app]. rewrite unescape_cons_cons.
    by rewrite !decide_False by (intros [_ [=]]).
  - change ((c :: d :: s) ++ backslash :: s2)
      with (c :: d :: (s ++ backslash :: s2)).
    rewrite !unescape_cons_cons.
    change (d :: s ++ backslash :: s2) with ((d :: s) ++ backslash :: s2).
    rewrite IH1, IH2. by repeat case_decide.
Qed.

(** ** The claims about the escape decoder *)

(** C4.  The decoder returns the left-to-right replacement of its argument:
    backslash-r gives the byte 0x0D and backslash-n the byte 0x0A, each for
    the two characters, and every other character, a backslash that is not
    followed by r or n too, is kept and decoding goes on at the next
    character.  Every backslash-r and backslash-n of the argument is
    replaced, wherever it stands: the decoded string is the decoded text
    before it, the one byte, and the decoded text after it.  An argument
    without backslash is returned as it is, and the four characters a,
    backslash, n, b give the three bytes a, 0x0A, b. *)
Theorem C4_escape_decoder (s t : list Z) :
  nul_free s →
  decoded (s ++ NUL :: t) = Some (unescape s)
  ∧ decoded (backslash :: char_r :: s ++ NUL :: t)
      = (CR ::.) <$> decoded (s ++ NUL :: t)
  ∧ decoded (backslash :: char_n :: s ++ NUL :: t)
      = (LF ::.) <$> decoded (s ++ NUL :: t)
  ∧ (∀ c, c ≠ NUL →
       c ≠ backslash ∨ (head s ≠ Some char_r ∧ head s ≠ Some char_n) →
       decoded (c :: s ++ NUL :: t) = (c ::.) <$> decoded (s ++ NUL :: t))
  ∧ (∀ s1 s2 out1 out2 e,
       s = s1 ++ backslash :: e :: s2 →
       decoded (argument s1) = Some out1 →
       decoded (argument s2) = Some out2 →
       (e = char_r → decoded (s ++ NUL :: t) = Some (out1 ++ CR :: out2))
       ∧ (e = char_n → decoded (s ++ NUL :: t) = Some (out1 ++ LF :: out2)))
  ∧ (backslash ∉ s → decoded (s ++ NUL :: t) = Some s)
  ∧ decoded (argument (chars "a\nb")) = Some [97; 10; 98].
Proof.
  intros Hs. rewrite (decoded_unescape s t Hs).
  assert (∀ c d, c ≠ NUL → d ≠ NUL →
            decoded (c :: d :: s ++ NUL :: t) = Some (unescape (c :: d :: s)))
    as Htwo.
  { intros c d Hc Hd.
    apply (decoded_unescape (c :: d :: s) t).
    by repeat (apply nul_free_cons; split). }
  split_and!.
  - done.
  - by rewrite Htwo.
  - by rewrite Htwo.
  - intros c Hc Hkeep.
    change (c :: s ++ NUL :: t) with ((c :: s) ++ NUL :: t).
    rewrite decoded_unescape by by apply nul_free_cons.
    destruct s as [|d s']; [done|].
    rewrite unescape_cons_cons. cbn [head] in Hkeep.
    rewrite !decide_False;
      [done|intros [-> ->]; destruct Hkeep as [?|[? ?]]; congruence..].
  - intros s1 s2 out1 out2 e -> Hout1 Hout2.
    apply nul_free_app in Hs as [Hs1 Hs2].
    apply nul_free_cons in Hs2 as [_ [_ Hs2]%nul_free_cons].
    unfold argument in Hout1, Hout2.
    rewrite decoded_unescape in Hout1, Hout2 by done.
    injection Hout1 as <-. injection Hout2 as <-.
    rewrite unescape_app_backslash, unescape_cons_cons.
    split; intros ->; [by rewrite decide_True|].
    by rewrite decide_False, decide_True by (done || intros [_ [=]]).
  - intros Hnot. by rewrite unescape_no_backslash.
  - by vm_compute.
Qed.

Lemma C4_escape_decoder_witness :
  nul_free [97; 98] ∧
  decoded (backslash :: char_r :: [97; 98] ++ NUL :: [])
    = (CR ::.) <$> decoded ([97; 98] ++ NUL :: []).
Proof.
  assert (nul_free [97; 98]) as Hs by (by repeat constructor).
  split; [exact Hs|].
  exact (proj1 (proj2 (C4_escape_decoder [97; 98] [] Hs))).
Defined.

(** C8.  For an argument of [n] characters the decoded string has between
    [ceil (n / 2)] and [n] characters: [copystr] returns an array whose
    string length is within these bounds. *)
Theorem C8_decoded_length (s t : list Z) :
  nul_free s →
  ∃ result m,
    copystr (s ++ NUL :: t) = Some result
    ∧ strlen result = Some m
    ∧ decoded (s ++ NUL :: t) = Some (take m result)
    ∧ ((length s + 1) `div` 2 ≤ m ≤ length s)%nat.
Proof.
  intros Hs. destruct (copystr_result s t Hs) as [k Hres].
  pose proof (unescape_nul_free s Hs) as Hout.
  exists (unescape s ++ NUL :: replicate k NUL), (length (unescape s)).
  split_and!.
  - done.
  - by apply strlen_terminated.
  - rewrite decoded_unescape by done. by rewrite take_app_length.
  - pose proof (unescape_length_ge s).
    apply Nat.lt_succ_r, Nat.Div0.div_lt_upper_bound. lia.
  - apply unescape_length_le.
Qed.

Lemma C8_decoded_length_witness :
  nul_free (chars "a\nb") ∧
  ∃ result m,
    copystr (chars "a\nb" ++ NUL :: []) = Some result
    ∧ strlen result = Some m
    ∧ decoded (chars "a\nb" ++ NUL :: []) = Some (take m result)
    ∧ ((length (chars "a\nb") + 1) `div` 2 ≤ m ≤ length (chars "a\nb"))%nat.
Proof.
  assert (nul_free (chars "a\nb")) as Hs by (by repeat constructor).
  split; [exact Hs|]. exact (C8_decoded_length (chars "a\nb") [] Hs).
Defined.

(** C9.  A backslash that is the last character of the argument is copied
    to the end of the decoded string.  A backslash is replaced only with r
    or n after it: before any other character, the terminator too, it is
    kept and decoding goes on at that character.  The decoder reads nothing
    after the terminator: in an array that ends with the terminator it
    returns a result, the same as in any longer array. *)
Theorem C9_trailing_backslash (s : list Z) :
  nul_free s →
  decoded (argument (s ++ [backslash]))
    = (.++ [backslash]) <$> decoded (argument s)
  ∧ is_Some (decoded (argument s))
  ∧ (∀ d str result r, d ≠ char_r → d ≠ char_n →
       copystr_loop (backslash :: d :: str) result r
         = result' ← store result r backslash;
           copystr_loop (d :: str) result' (S r))
  ∧ (∀ t, copystr (s ++ NUL :: t) = copystr (argument s))
  ∧ is_Some (copystr (argument (s ++ [backslash]))).
Proof.
  intros Hs.
  assert (nul_free (s ++ [backslash])) as Hs'.
  { apply nul_free_app. split; [done|]. by repeat constructor. }
  unfold argument. split_and!.
  - rewrite !decoded_unescape by done.
    by rewrite unescape_snoc_backslash.
  - by rewrite decoded_unescape.
  - intros. by apply copystr_loop_backslash.
  - intros t'. by rewrite !copystr_unescape.
  - by rewrite copystr_unescape.
Qed.

Lemma C9_trailing_backslash_witness :
  nul_free [97] ∧
  decoded (argument ([97] ++ [backslash]))
    = (.++ [backslash]) <$> decoded (argument [97]).
Proof.
  assert (nul_free [97]) as Hs by (by repeat constructor).
  split; [exact Hs|]. exact (proj1 (C9_trailing_backslash [97] Hs)).
Defined.

(** ** The integer encoder *)

Lemma enum_value_width (type : data_type) :
  type ≠ type_str → enum_value type ∈ [1; 2; 4; 8].
Proof. destruct type; intros ?; try done; set_solver. Qed.

Lemma enum_value_range (type : data_type) :
  type ≠ type_str → 1 ≤ enum_value type ≤ 8.
Proof. by destruct type. Qed.

(** Bits above the width do not reach the encoding. *)
Lemma little_endian_mod (width x : Z) :
  0 ≤ width →
  little_endian width (x `mod` 2 ^ (8 * width)) = little_endian width x.
Proof.
  intros Hw. unfold little_endian.
  rewrite (Z.mul_comm 8 width).
  rewrite <- (little_endian_to_Z_to_little_endian width 8 x) by lia.
  apply Z_to_little_endian_to_Z.
  - by rewrite length_Z_to_little_endian.
  - lia.
  - apply Z_to_little_endian_bound; lia.
Qed.


Lemma little_endian_succ (width x : Z) :
  0 ≤ width →
  little_endian (Z.succ width) x
    = Z.land x 255 :: little_endian width (x ≫ 8).
Proof. intros. unfold little_endian. by rewrite Z_to_little_endian_succ. Qed.

Ltac little_endian_unfold :=
  repeat
    match goal with
    | |- context [little_endian (Zpos ?p) ?x] =>
      change (little_endian (Zpos p) x)
        with (little_endian (Z.succ (Z.pred (Zpos p))) x);
      rewrite (little_endian_succ (Z.pred (Zpos p)) x) by done;
      cbn [Z.pred Z.add Z.pos_sub Pos.pred_double Z.succ_double Z.double
           Z.pred_double]
    end;
  change (little_endian 0) with (λ _ : Z, @nil Z); cbv beta;
  rewrite ?Z.shiftr_shiftr by done; cbn [Z.add Pos.add Pos.succ].

(** The cascade stores the little-endian bytes of [v] in the first
    [enum_value type] places and leaves zeros in the others. *)
Lemma int_bytes_little_endian (type : data_type) (v : Z) :
  type ≠ type_str →
  int_bytes type v
    = little_endian (enum_value type) v
      ++ replicate (Z.to_nat (8 - enum_value type)) 0.
Proof.
  intros Htype.
  destruct type; [| | | |done]; cbn [enum_value];
    little_endian_unfold; reflexivity.
Qed.

(** ** Writing into a file *)

(** The file up to position [p], with zeros where it was shorter. *)
Lemma length_reach (f : list Z) (p : nat) :
  length (take p f ++ replicate (p - length f) 0) = p.
Proof. rewrite length_app, length_take, length_replicate. lia. Qed.

Lemma write_at_cons f pos b data :
  write_at f pos (b :: data)
    = (take (Z.to_nat pos) f ++ replicate (Z.to_nat pos - length f) 0)
      ++ (b :: data) ++ drop (Z.to_nat pos + length (b :: data)) f.
Proof. unfold write_at. by rewrite <- app_assoc. Qed.



Lemma write_at_length f pos data :
  data ≠ [] →
  length (write_at f pos data)
    = (length f `max` (Z.to_nat pos + length data))%nat.
Proof.
  destruct data as [|b data]; [done|]. intros _.
  rewrite write_at_cons, length_app, length_reach, length_app, length_drop.
  lia.
Qed.

(** A write that stays inside the file keeps its length. *)
Lemma write_at_length_inside f pos data :
  (Z.to_nat pos + length data ≤ length f)%nat →
  length (write_at f pos data) = length f.
Proof.
  destruct data as [|b data]; [done|]. intros. rewrite write_at_length; [lia|done].
Qed.

(** Writing a prefix of the data over the data changes nothing. *)
Lemma write_at_again f pos data (k : nat) :
  write_at (write_at f pos data) pos (take k data) = write_at f pos data.
Proof.
  destruct data as [|b data]; [by rewrite take_nil|].
  destruct k as [|k]; [done|].
  set (d := b :: data).
  assert (take (S k) d = b :: take k data) as Hd by done.
  rewrite Hd, write_at_cons, <- Hd. clear Hd.
  set (g := write_at f pos d). set (p := Z.to_nat pos).
  assert (p + length d ≤ length g)%nat as Hlen.
  { unfold g. rewrite write_at_length by done. lia. }
  assert (take p g = take p f ++ replicate (p - length f) 0) as Hpre.
  { unfold g, d. rewrite write_at_cons.
    rewrite <- (length_reach f p) at 1. by rewrite take_app_length. }
  assert (drop p g = d ++ drop (p + length d) f) as Hpost.
  { unfold g, d. rewrite write_at_cons.
    rewrite <- (length_reach f p) at 1. by rewrite drop_app_length. }
  replace (p - length g)%nat with 0%nat by lia. cbn [replicate].
  rewrite app_nil_r.
  rewrite <- (take_drop p g) at 3. f_equal.
  rewrite <- drop_drop, Hpost.
  rewrite drop_app_le by (rewrite length_take; lia).
  rewrite app_assoc. f_equal.
  assert (drop (length (take (S k) d)) d = drop (S k) d) as ->.
  { rewrite length_take. destruct (decide (S k ≤ length d)%nat).
    - f_equal. lia.
    - by rewrite !drop_ge by lia. }
  apply take_drop.
Qed.

Lemma write_at_idem f pos data :
  write_at (write_at f pos data) pos data = write_at f pos data.
Proof.
  rewrite <- (firstn_all data) at 2. apply write_at_again.
Qed.

(** ** The string block *)

Lemma malloc_granted w n :
  n ≤ Z.pos (heap w) → malloc w n = Some (fresh w <$> seq 0 (Z.to_nat n)).
Proof. intros Hn. unfold malloc. by rewrite decide_True. Qed.

Lemma malloc_refused w n : Z.pos (heap w) < n → malloc w n = None.
Proof. intros Hn. unfold malloc. by rewrite decide_False by lia. Qed.

Lemma length_malloc w n buffer :
  malloc w n = Some buffer → length buffer = Z.to_nat n.
Proof.
  unfold malloc. case_decide; [|done]. intros [= <-].
  by rewrite length_fmap, length_seq.
Qed.

(** [malloc] returns a null pointer in [main] only when [memset] is to
    fill one byte or more. *)
Lemma malloc_null w L :
  0 ≤ L < 2 ^ 64 → malloc w (uint64 (L + 1)) = None → 1 ≤ L.
Proof.
  intros HL. unfold malloc. case_decide as Hheap; [done|]. intros _.
  destruct (decide (L = 2 ^ 64 - 1)) as [->|]; [lia|].
  unfold uint64 in Hheap. rewrite Z.mod_small in Hheap by lia. lia.
Qed.

Lemma uint64_small z : 0 ≤ z < 2 ^ 64 → uint64 z = z.
Proof. apply Z.mod_small. Qed.



(** With [length] at [2^64 - 1] the allocation has no byte and [memset]
    fills outside it. *)
Lemma str_buffer_wraps w data_in p :
  str_buffer w data_in (2 ^ 64 - 1) p = None.
Proof.
  unfold str_buffer. destruct (strlen data_in); [|done].
  cbn [mbind option_bind].
  change (uint64 (2 ^ 64 - 1 + 1)) with 0.
  rewrite malloc_granted by lia.
  change (fresh w <$> seq 0 (Z.to_nat 0)) with (@nil Z).
  cbn [mbind option_bind]. unfold memset.
  by rewrite (decide_False (P := _ ≤ Z.of_nat _)) by (cbn [length]; lia).
Qed.

(** With a [length] that the host does not have, [malloc] returns a null
    pointer and [memset] fills through it. *)
Lemma str_buffer_refused w data_in L p :
  0 ≤ L → L + 1 < 2 ^ 64 → Z.pos (heap w) < L + 1 →
  str_buffer w data_in L p = None.
Proof.
  intros HL0 HL Hheap. unfold str_buffer.
  destruct (strlen data_in); [|done]. cbn [mbind option_bind].
  rewrite uint64_small by lia. by rewrite malloc_refused.
Qed.


(** ** The option loop *)

(** [copystr] on an argument always returns a terminated string. *)
Lemma copystr_argument optarg :
  ∃ k, copystr (argument optarg)
       = Some (unescape (c_str optarg) ++ NUL :: replicate k NUL).
Proof.
  destruct (argument_terminated optarg) as [t ->].
  apply copystr_result. auto with cstring.
Qed.

Ltac option_case_split H :=
  unfold option_case in H;
  repeat case_decide; simplify_option_eq.

Lemma option_case_data_in w l out o l' out' :
  option_case w (l, out) o = Some (l', out') →
  data_in_ok l → data_in_ok l'.
Proof.
  destruct o as [c optarg]. intros Hcase Hok.
  destruct (decide (c = 100)) as [->|Hc].
  - unfold option_case in Hcase. repeat case_decide; try done.
    destruct (copystr_argument optarg) as [k Hk].
    rewrite Hk in Hcase. simplify_option_eq.
    intros d [= <-]. eexists _, _. split; [done|]. auto with cstring.
  - unfold data_in_ok in *.
    option_case_split Hcase; cbn [m_data_in]; auto.
Qed.

Lemma scan_data_in w argv : ∀ l out l' out',
  scan w (l, out) argv = Some (l', out') →
  data_in_ok l → data_in_ok l'.
Proof.
  induction argv as [|o argv IH]; intros l out l' out'; cbn [scan].
  - by intros [= <- <-].
  - destruct (option_case w (l, out) o) as [[l1 out1]|] eqn:Hcase; [|done].
    intros Hscan Hok. eapply IH; [done|].
    by eapply option_case_data_in.
Qed.

Lemma initial_data_in_ok : data_in_ok initial.
Proof. by intros d. Qed.

Lemma option_case_file w l out o l' out' :
  option_case w (l, out) o = Some (l', out') →
  (is_Some (m_file l') ↔ is_Some (m_file l) ∨ o.1 = 102).
Proof.
  destruct o as [c optarg]. cbn [fst]. intros Hcase.
  option_case_split Hcase; cbn [m_file];
    intuition (eauto; congruence).
Qed.

Lemma scan_file w argv : ∀ l out l' out',
  scan w (l, out) argv = Some (l', out') →
  (is_Some (m_file l') ↔ is_Some (m_file l) ∨ has_f argv).
Proof.
  unfold has_f.
  induction argv as [|o argv IH]; intros l out l' out'; cbn [scan].
  - intros [= <- <-]. rewrite Exists_nil. tauto.
  - destruct (option_case w (l, out) o) as [[l1 out1]|] eqn:Hcase; [|done].
    intros Hscan. rewrite (IH _ _ _ _ Hscan).
    rewrite (option_case_file _ _ _ _ _ _ Hcase), Exists_cons. tauto.
Qed.

(** Without an option [f] the loop has no undefined step. *)
Lemma scan_without_f w argv : ∀ st,
  ¬ has_f argv → is_Some (scan w st argv).
Proof.
  unfold has_f.
  induction argv as [|[c optarg] argv IH]; intros [l out] Hno; cbn [scan].
  - done.
  - rewrite Exists_cons in Hno. cbn [fst] in Hno.
    destruct (copystr_argument optarg) as [k Hk].
    assert (is_Some (option_case w (l, out) (c, optarg))) as [[l1 out1] ->].
    { unfold option_case. rewrite Hk.
      repeat case_decide; try done. tauto. }
    apply IH. tauto.
Qed.

(** The loop asks the host only for the expansion of paths. *)
Lemma scan_after w o argv : ∀ st, scan (after w o) st argv = scan w st argv.
Proof.
  induction argv as [|a argv IH]; intros st; cbn [scan]; [done|].
  assert (option_case (after w o) st a = option_case w st a) as -> by done.
  destruct (option_case w st a); [apply IH|done].
Qed.

(** ** One run *)

(** A run that opened the file either has no defined end before it writes,
    or makes one [fwrite] and returns 0 or 3 by what [fwrite] returned. *)
Lemma patch_opened w l out file content :
  m_file l = Some file → files w !! c_str file = Some content →
  let path := c_str file in
  let seek := fseek w 0 (long (m_offset l)) in
  let begun := [Fopen path true; Fseek (long (m_offset l)) seek.2] in
  (exit_status (patch w l out) = Undefined
   ∧ calls (patch w l out) = begun
   ∧ files_after (patch w l out) = files w
   ∧ ∀ ptr n, ¬ handed w l ptr n)
  ∨ (∃ ptr n, handed w l ptr n
     ∧ exit_status (patch w l out)
         = (if decide (fwrite w n ≠ n) then Returned 3 else Returned 0)
     ∧ calls (patch w l out)
         = begun ++ Fwrite ptr n (fwrite w n)
             :: (if decide (fwrite w n ≠ n) then [] else [Fclose])
     ∧ stderr (patch w l out)
         = (if decide (fwrite w n ≠ n) then [short_write (fwrite w n)]
            else [])
     ∧ files_after (patch w l out)
         = patched w path content seek.1 ptr (reached w n)).
Proof.
  intros Hfile Hopen. cbv zeta. unfold patch. rewrite Hfile, Hopen.
  destruct (fseek w 0 (long (m_offset l))) as [pos ret]. cbn [fst snd].
  unfold reached.
  destruct (decide (m_type l ≠ type_str)) as [Htype|Htype].
  - destruct (m_data_in l) as [data_in|] eqn:Hdata.
    + right. eexists _, _. split.
      { left. split; [done|]. by eexists. }
      by case_decide.
    + left. split_and!; [done..|].
      intros ptr n [(_ & d & ? & _)|(? & _)]; congruence.
  - apply dec_stable in Htype.
    destruct (m_data_in l) as [data_in|] eqn:Hdata.
    + destruct (str_buffer w data_in (m_length l) (m_pad_value l))
        as [buffer|] eqn:Hbuf.
      * right. eexists _, _. split.
        { right. split; [done|]. by eexists. }
        by case_decide.
      * left. split_and!; [done..|].
        intros ptr n [(? & _)|(_ & d & ? & ? & _)]; congruence.
    + left. split_and!; [done..|].
      intros ptr n [(? & _)|(_ & d & ? & _)]; congruence.
Qed.

Lemma integer_for_range arg : 0 ≤ integer_for arg < 2 ^ 64.
Proof. unfold integer_for, uint64. by apply Z.mod_pos_bound. Qed.

Lemma option_case_ranges w l out o l' out' :
  option_case w (l, out) o = Some (l', out') →
  ranges_ok l → ranges_ok l'.
Proof.
  destruct o as [c optarg]. intros Hcase (Ho & Hl & Hp).
  pose proof (integer_for_range (argument optarg)) as Hint.
  assert (0 ≤ Z.land (integer_for (argument optarg)) 255 < 2 ^ 8) as Hland.
  { change 255 with (Z.ones 8). rewrite Z.land_ones by done.
    by apply Z.mod_pos_bound. }
  unfold ranges_ok.
  option_case_split Hcase; cbn [m_offset m_length m_pad_value]; done.
Qed.

Lemma scan_ranges w argv : ∀ l out l' out',
  scan w (l, out) argv = Some (l', out') →
  ranges_ok l → ranges_ok l'.
Proof.
  induction argv as [|o argv IH]; intros l out l' out'; cbn [scan].
  - by intros [= <- <-].
  - destruct (option_case w (l, out) o) as [[l1 out1]|] eqn:Hcase; [|done].
    intros Hscan Hok. eapply IH; [done|].
    by eapply option_case_ranges.
Qed.

Lemma initial_ranges_ok : ranges_ok initial.
Proof. by compute. Qed.

(** What the blocks hand to [fwrite] is determined by the locals, and does
    not depend on the files of the host. *)
Lemma handed_functional w l ptr n ptr' n' :
  handed w l ptr n → handed w l ptr' n' → ptr = ptr' ∧ n = n'.
Proof.
  intros [(Ht & d & Hd & -> & ->)|(Ht & d & Hd & Hb & ->)]
         [(Ht' & d' & Hd' & -> & ->)|(Ht' & d' & Hd' & Hb' & ->)];
    try congruence.
  - split; congruence.
  - split; congruence.
Qed.

Lemma handed_after w o l ptr n : handed (after w o) l ptr n ↔ handed w l ptr n.
Proof. done. Qed.

Lemma fwrite_le w n : fwrite w n ≤ n.
Proof. unfold fwrite. lia. Qed.

Lemma fwrite_zero w : fwrite w 0 = 0.
Proof. unfold fwrite. lia. Qed.

Lemma reached_le w n : reached w n ≤ fwrite w n.
Proof. unfold reached, flushed. case_decide; lia. Qed.

Lemma reached_zero w : reached w 0 = 0.
Proof. unfold reached, flushed. rewrite fwrite_zero. case_decide; lia. Qed.

(** On the path that returns 3 the count of [fwrite] is what is in the
    file; on the path that returns 0 it is what the flush transferred, all
    of it when the flush has room. *)
Lemma reached_short w n : fwrite w n ≠ n → reached w n = fwrite w n.
Proof. intros Hr. unfold reached. by rewrite decide_True. Qed.

Lemma reached_full w n :
  fwrite w n = n → n ≤ Z.of_nat (flush w) → reached w n = n.
Proof.
  intros Hr Hflush. unfold reached, flushed.
  rewrite decide_False by (by intros []). lia.
Qed.

(** The calls of a run that writes: the only [fwrite] is the one after
    the seek. *)
Lemma fwrite_in_calls (c : call) (pre post : list call) :
  c ∈ pre ++ c :: post.
Proof. apply elem_of_app. right. left. Qed.

Lemma only_fwrite `{Decision P} path off ret ptr n r ptr' n' r' :
  Fwrite ptr' n' r'
    ∈ [Fopen path true; Fseek off ret]
      ++ Fwrite ptr n r :: (if decide P then [] else [Fclose]) →
  ptr' = ptr ∧ n' = n ∧ r' = r.
Proof.
  rewrite elem_of_app, !elem_of_cons, elem_of_nil.
  intros [[[=]|[[=]|[]]]|[[= -> -> ->]|Hin]]; [done|].
  destruct (decide P).
  - by apply elem_of_nil in Hin.
  - by apply list_elem_of_singleton in Hin.
Qed.

(** ** The exit code and the stream *)

Section run.
Context (w : world) (argv : list (Z * list Z)).

(** A run is one of five: undefined in the option loop, no file named, the
    file not opened, undefined after the file was opened, or one [fwrite]. *)
Lemma main_cases :
  let run := main w argv in
  (scan w (initial, []) argv = None ∧ has_f argv
   ∧ exit_status run = Undefined ∧ calls run = []
   ∧ files_after run = files w)
  ∨ (∃ l out, scan w (initial, []) argv = Some (l, out)
     ∧ run = patch w l out ∧ data_in_ok l ∧ ranges_ok l
     ∧ ((¬ has_f argv ∧ m_file l = None
         ∧ exit_status run = Returned 1
         ∧ stderr run = ["No binary file supplied."]
         ∧ calls run = [] ∧ files_after run = files w)
        ∨ (∃ file, has_f argv ∧ m_file l = Some file
           ∧ files w !! c_str file = None
           ∧ exit_status run = Returned 2
           ∧ stderr run = ["Failed to open specified binary file."]
           ∧ calls run = [Fopen (c_str file) false]
           ∧ files_after run = files w)
        ∨ (∃ file content, has_f argv ∧ m_file l = Some file
           ∧ files w !! c_str file = Some content))).
Proof.
  cbv zeta. unfold main.
  destruct (scan w (initial, []) argv) as [[l out]|] eqn:Hscan.
  - right. exists l, out.
    pose proof (scan_file _ _ _ _ _ _ Hscan) as Hfile.
    pose proof (scan_data_in _ _ _ _ _ _ Hscan initial_data_in_ok).
    pose proof (scan_ranges _ _ _ _ _ _ Hscan initial_ranges_ok).
    assert (¬ is_Some (m_file initial)) as Hinit
      by (intros [? [=]]).
    split_and!; [done..|].
    unfold patch. destruct (m_file l) as [file|] eqn:Hf.
    + assert (has_f argv) by (destruct Hfile as [[|] _]; eauto; done).
      right. destruct (files w !! c_str file) as [content|] eqn:Hopen.
      * right. by exists file, content.
      * left. by exists file.
    + left. split_and!; try done.
      intros Hhas. destruct Hfile as [_ [? [=]]]. by right.
  - left. split_and!; try done.
    destruct (decide (has_f argv)) as [|Hno]; [done|].
    destruct (scan_without_f w argv (initial, []) Hno) as [? Hsome].
    congruence.
Qed.

(** C5.  The exit code is 1 exactly when no option [f] was given, with the
    message that no binary file was supplied; 2 exactly when one was given
    and the file it names cannot be opened, with the message that the open
    failed; 3 exactly when the file was opened and [fwrite] transferred
    fewer bytes than it was asked for; 0 exactly when [fwrite] transferred
    all the bytes it was asked for. *)
Theorem C5_exit_codes :
  let run := main w argv in
  (exit_status run = Returned 1 ↔ ¬ has_f argv)
  ∧ (exit_status run = Returned 1 →
       stderr run = ["No binary file supplied."])
  ∧ (exit_status run = Returned 2 ↔
       ∃ l out file,
         scan w (initial, []) argv = Some (l, out) ∧ has_f argv
         ∧ m_file l = Some file ∧ files w !! c_str file = None)
  ∧ (exit_status run = Returned 2 →
       stderr run = ["Failed to open specified binary file."])
  ∧ (exit_status run = Returned 3 ↔
       ∃ path ptr n r,
         Fopen path true ∈ calls run ∧ Fwrite ptr n r ∈ calls run ∧ r < n)
  ∧ (exit_status run = Returned 0 ↔
       ∃ ptr n, Fwrite ptr n n ∈ calls run).
Proof.
  cbv zeta.
  destruct main_cases
    as [(Hscan & Hf & -> & Hcalls & _)
       |(l & out & Hscan & Hrun & _ & _
         & [(Hf & Hfile & Hexit & Herr & Hcalls & _)
           |[(file & Hf & Hfile & Hopen & Hexit & Herr & Hcalls & _)
            |(file & content & Hf & Hfile & Hopen)]])].
  - rewrite Hcalls. split_and!; try done; split; try done.
    + intros (? & ? & ? & ? & _); congruence.
    + intros (? & ? & ? & ? & []%elem_of_nil & _).
    + intros (? & ? & []%elem_of_nil).
  - rewrite Hexit, Herr, Hcalls. split_and!; try done; split; try done.
    + intros (? & ? & ? & _ & ? & _). done.
    + intros (? & ? & ? & ? & []%elem_of_nil & _).
    + intros (? & ? & []%elem_of_nil).
  - rewrite Hexit, Herr, Hcalls. split_and!; try done; split; try done.
    + intros _. by exists l, out, file.
    + intros (? & ? & ? & ? & [=]%list_elem_of_singleton & _).
    + intros (? & ? & [=]%list_elem_of_singleton).
  - rewrite Hrun.
    assert (∀ ptr n r,
      Fwrite ptr n r ∉ [Fopen (c_str file) true;
        Fseek (long (m_offset l)) (fseek w 0 (long (m_offset l))).2])
      as Hbegun.
    { intros ???. rewrite !elem_of_cons, elem_of_nil.
      intros [[=]|[[=]|[]]]. }
    destruct (patch_opened w l out file content Hfile Hopen)
      as [(-> & -> & _)
         |(ptr & n & _ & -> & -> & _)].
    + split_and!; try done; split; try done.
      * intros (l' & out' & file' & ? & _ & ? & ?). congruence.
      * intros (? & ? & ? & ? & _ & []%Hbegun & _).
      * intros (? & ? & []%Hbegun).
    + pose proof (fwrite_le w n) as Hle.
      destruct (decide (fwrite w n ≠ n)) as [Hr|Hr%dec_stable].
      * split_and!; try done; split; try done.
        -- intros (l' & out' & file' & ? & _ & ? & ?). congruence.
        -- intros _. exists (c_str file), ptr, n, (fwrite w n).
           split_and!; [set_solver..|lia].
        -- intros (ptr' & n' & [[]%Hbegun|Hin]%elem_of_app).
           apply list_elem_of_singleton in Hin. congruence.
      * split_and!; try done; split; try done.
        -- intros (l' & out' & file' & ? & _ & ? & ?). congruence.
        -- intros (? & ptr' & n' & r' & _ & [[]%Hbegun|Hin]%elem_of_app & ?).
           rewrite elem_of_cons, list_elem_of_singleton in Hin.
           destruct Hin as [[= -> -> ->]|[=]]. lia.
        -- intros _. exists ptr, n. rewrite Hr. set_solver.
Qed.

(** Whenever [main] returns 3 the stream was opened and [fclose] was not
    called; when it returns 0 the last call is [fclose]. *)
Lemma returned_3_not_closed :
  exit_status (main w argv) = Returned 3 →
  (∃ path, Fopen path true ∈ calls (main w argv))
  ∧ Fclose ∉ calls (main w argv).
Proof.
  destruct main_cases
    as [(_ & _ & -> & _)
       |(l & out & _ & Hrun & _ & _
         & [(_ & _ & -> & _)
           |[(file & _ & _ & _ & -> & _)
            |(file & content & _ & Hfile & Hopen)]])]; try done.
  rewrite Hrun.
  destruct (patch_opened w l out file content Hfile Hopen)
    as [(-> & _)|(ptr & n & _ & -> & -> & _)]; [done|].
  case_decide; [|done]. intros _. split.
  - exists (c_str file). set_solver.
  - rewrite !elem_of_app, !elem_of_cons, !elem_of_nil.
    intros [[[=]|[[=]|[]]]|[[=]|[]]].
Qed.

Lemma returned_0_closed :
  exit_status (main w argv) = Returned 0 →
  last (calls (main w argv)) = Some Fclose.
Proof.
  destruct main_cases
    as [(_ & _ & -> & _)
       |(l & out & _ & Hrun & _ & _
         & [(_ & _ & -> & _)
           |[(file & _ & _ & _ & -> & _)
            |(file & content & _ & Hfile & Hopen)]])]; try done.
  rewrite Hrun.
  destruct (patch_opened w l out file content Hfile Hopen)
    as [(-> & _)|(ptr & n & _ & -> & -> & _)]; [done|].
  by case_decide.
Qed.

End run.

(** C6.  On the path that returns 3 the stream that was opened is not
    closed: with a file that takes one byte and two bytes to write, [main]
    opens the file, writes short and returns 3 without a call of [fclose].
    The path that returns 0 ends with [fclose]. *)
Theorem C6_short_write_leaves_stream_open :
  let argv := [opt "f" "x"; opt "t" "dw"; opt "d" "2"] in
  let short := main (host [7; 7; 7; 7] 1) argv in
  let full := main (host [7; 7; 7; 7] 2) argv in
  exit_status short = Returned 3
  ∧ calls short
      = [Fopen (chars "x") true; Fseek 0 0;
         Fwrite [2; 0; 0; 0; 0; 0; 0; 0] 2 1]
  ∧ (Fclose ∉ calls short)
  ∧ exit_status full = Returned 0
  ∧ last (calls full) = Some Fclose.
Proof.
  cbv zeta. split_and!; [by vm_compute..| |by vm_compute|by vm_compute].
  apply returned_3_not_closed. by vm_compute.
Qed.

(** ** Running twice *)

(** C7.  Running the program again with the same argument vector, on the
    files that the first run left, leaves the same files: the second run
    writes the same bytes at the same place. *)
Theorem C7_idempotent (w : world) (argv : list (Z * list Z)) :
  files_after (main (after w (main w argv)) argv)
    = files_after (main w argv).
Proof.
  set (w' := after w (main w argv)).
  assert (files w' = files_after (main w argv)) as Hfiles by done.
  destruct (main_cases w argv)
    as [(Hscan & _ & _ & _ & Hafter)
       |(l & out & Hscan & Hrun & _ & _
         & [(_ & Hfile & _ & _ & _ & Hafter)
           |[(file & _ & Hfile & Hopen & _ & _ & _ & Hafter)
            |(file & content & _ & Hfile & Hopen)]])].
  - unfold main at 1. unfold w'. by rewrite scan_after, Hscan.
  - unfold main at 1. unfold w' at 1. rewrite scan_after, Hscan.
    unfold patch. by rewrite Hfile.
  - unfold main at 1. unfold w' at 1. rewrite scan_after, Hscan.
    unfold patch. rewrite Hfile, Hfiles, Hafter, Hopen. done.
  - unfold main at 1. unfold w' at 1. rewrite scan_after, Hscan.
    rewrite Hrun in Hfiles |- *.
    destruct (patch_opened w l out file content Hfile Hopen)
      as [(_ & _ & Hafter & Hnone)
         |(ptr & n & Hhanded & _ & _ & _ & Hafter)].
    + rewrite Hafter in Hfiles |- *.
      assert (files w' !! c_str file = Some content) as Hopen'
        by by rewrite Hfiles.
      destruct (patch_opened w' l out file content Hfile Hopen')
        as [(_ & _ & -> & _)|(ptr' & n' & Hhanded' & _)]; [done|].
      by destruct (Hnone ptr' n').
    + rewrite Hafter in Hfiles |- *. unfold patched in Hfiles.
      set (pos := (fseek w 0 (long (m_offset l))).1) in *.
      set (data := take (Z.to_nat (reached w n)) ptr) in *.
      assert (files w' !! c_str file = Some (write_at content pos data))
        as Hopen' by by rewrite Hfiles, lookup_insert_eq.
      destruct (patch_opened w' l out file _ Hfile Hopen')
        as [(_ & _ & _ & Hnone)|(ptr' & n' & Hhanded' & _ & _ & _ & ->)].
      { by destruct (Hnone ptr n). }
      destruct (handed_functional w l ptr n ptr' n' Hhanded Hhanded')
        as [<- <-].
      unfold patched.
      change (fseek w' 0 (long (m_offset l))) with (fseek w 0 (long (m_offset l))).
      fold pos. change (reached w' n) with (reached w n).
      fold data. rewrite Hfiles, insert_insert_eq.
      by rewrite write_at_idem.
Qed.

(** ** A string of length zero *)

Lemma str_buffer_zero w data_in len p :
  strlen data_in = Some len → str_buffer w data_in 0 p = Some [fresh w 0].
Proof.
  intros Hlen. unfold str_buffer. rewrite Hlen. cbn [mbind option_bind].
  change (uint64 (0 + 1)) with 1.
  rewrite malloc_granted by (pose proof (Pos2Z.is_pos (heap w)); lia).
  change (fresh w <$> seq 0 (Z.to_nat 1)) with [fresh w 0].
  cbn [mbind option_bind].
  change (memset [fresh w 0] p 0) with (Some [fresh w 0]).
  cbn [mbind option_bind].
  assert (0 ≤ uint32 (Z.of_nat len)) by (by apply Z.mod_pos_bound).
  assert ((if decide (uint32 (Z.of_nat len) > 0) then 0
           else uint32 (Z.of_nat len)) = 0) as -> by (case_decide; lia).
  unfold memcpy. rewrite decide_True by (cbn [length]; lia).
  change (Z.to_nat 0) with 0%nat. by rewrite take_0, drop_0.
Qed.

(** C10.  In string mode with length 0, when the file is opened and the
    data were given, [fwrite] is asked for no byte and returns 0, which is
    the count asked for: nothing is reported, the files are unchanged and
    [main] returns 0. *)
Theorem C10_zero_length (w : world) (argv : list (Z * list Z))
    (l : locals) (out : list string) (file content : list Z) :
  scan w (initial, []) argv = Some (l, out) →
  m_file l = Some file → files w !! c_str file = Some content →
  is_Some (m_data_in l) →
  m_type l = type_str → m_length l = 0 →
  let run := main w argv in
  exit_status run = Returned 0
  ∧ stderr run = []
  ∧ files_after run = files w
  ∧ (∃ buffer, Fwrite buffer 0 0 ∈ calls run)
  ∧ (∀ ptr n r, Fwrite ptr n r ∈ calls run → n = 0 ∧ r = 0).
Proof.
  intros Hscan Hfile Hopen [data_in Hdata] Htype Hlength. cbv zeta.
  pose proof (scan_data_in _ _ _ _ _ _ Hscan initial_data_in_ok _ Hdata)
    as (s & t & -> & Hs).
  assert (handed w l [fresh w 0] 0) as Hhanded.
  { right. split; [done|]. eexists. split; [done|]. split; [|done].
    rewrite Hlength. eapply str_buffer_zero. by apply strlen_terminated. }
  unfold main. rewrite Hscan.
  destruct (patch_opened w l out file content Hfile Hopen)
    as [(_ & _ & _ & Hnone)|(ptr & n & Hhanded' & -> & -> & -> & ->)].
  { by destruct (Hnone _ _ Hhanded). }
  destruct (handed_functional _ _ _ _ _ _ Hhanded Hhanded') as [<- <-].
  rewrite fwrite_zero, reached_zero. rewrite decide_False by (by intros []).
  split_and!; try done.
  - unfold patched. change (take (Z.to_nat 0) [fresh w 0]) with (@nil Z).
    by apply insert_id.
  - exists [fresh w 0]. set_solver.
  - intros ptr n r Hin. set_unfold in Hin.
    by destruct Hin as [?|[?|[?|[?|[]]]]]; simplify_eq.
Qed.

Lemma C10_zero_length_witness :
  let w := host [7; 7; 7; 7] 8 in
  let argv := [opt "f" "x"; opt "t" "str"; opt "l" "0"; opt "d" "Hi"] in
  exit_status (main w argv) = Returned 0
  ∧ files_after (main w argv) = files w.
Proof.
  cbv zeta.
  pose proof (C10_zero_length (host [7; 7; 7; 7] 8)
    [opt "f" "x"; opt "t" "str"; opt "l" "0"; opt "d" "Hi"]
    {| m_file := Some (chars "x" ++ [NUL]); m_offset := 0;
       m_type := type_str; m_length := 0; m_pad_value := 0;
       m_data_in := Some (chars "Hi" ++ [NUL]) |}
    [] (chars "x" ++ [NUL]) [7; 7; 7; 7]) as H.
  cbv zeta in H.
  destruct H as (H0 & _ & Hf & _);
    [by vm_compute|reflexivity|by vm_compute|by eexists
    |reflexivity|reflexivity|].
  by split.
Defined.

(** ** Integer mode *)

(** A run in integer mode that opened its file. *)
Lemma integer_run w argv l out file content data_in :
  scan w (initial, []) argv = Some (l, out) →
  m_file l = Some file → files w !! c_str file = Some content →
  m_data_in l = Some data_in → m_type l ≠ type_str →
  let width := enum_value (m_type l) in
  let bytes := int_bytes (m_type l) (integer_for data_in) in
  let r := fwrite w width in
  let seek := fseek w 0 (long (m_offset l)) in
  exit_status (main w argv)
    = (if decide (r ≠ width) then Returned 3 else Returned 0)
  ∧ calls (main w argv)
      = [Fopen (c_str file) true; Fseek (long (m_offset l)) seek.2]
        ++ Fwrite bytes width r
           :: (if decide (r ≠ width) then [] else [Fclose])
  ∧ files_after (main w argv)
      = patched w (c_str file) content seek.1 bytes (reached w width).
Proof.
  intros Hscan Hfile Hopen Hdata Htype. cbv zeta.
  assert (handed w l (int_bytes (m_type l) (integer_for data_in))
            (enum_value (m_type l))) as Hhanded.
  { left. split; [done|]. by eexists. }
  unfold main. rewrite Hscan.
  destruct (patch_opened w l out file content Hfile Hopen)
    as [(_ & _ & _ & Hnone)|(ptr & n & Hhanded' & -> & -> & _ & ->)].
  { by destruct (Hnone _ _ Hhanded). }
  by destruct (handed_functional _ _ _ _ _ _ Hhanded Hhanded') as [<- <-].
Qed.

Lemma length_little_endian width x :
  0 ≤ width → length (little_endian width x) = Z.to_nat width.
Proof.
  intros. unfold little_endian.
  pose proof (length_Z_to_little_endian width 8 x). lia.
Qed.

(** The shape of the array of the integer block. *)
Lemma int_bytes_shape (type : data_type) (v : Z) :
  type ≠ type_str →
  let width := enum_value type in
  width ∈ [1; 2; 4; 8]
  ∧ length (int_bytes type v) = 8%nat
  ∧ take (Z.to_nat width) (int_bytes type v)
      = little_endian width (v `mod` 2 ^ (8 * width))
  ∧ drop (Z.to_nat width) (int_bytes type v)
      = replicate (8 - Z.to_nat width) 0.
Proof.
  intros Htype. cbv zeta.
  pose proof (enum_value_width type Htype) as Hw.
  pose proof (enum_value_range type Htype) as Hrange.
  rewrite (int_bytes_little_endian type v Htype).
  generalize dependent (enum_value type). intros width Hw Hrange.
  rewrite little_endian_mod by lia.
  split_and!.
  - done.
  - rewrite length_app, length_little_endian, length_replicate by lia. lia.
  - rewrite take_app_length'; [done|]. by rewrite length_little_endian by lia.
  - rewrite drop_app_length' by (by rewrite length_little_endian by lia).
    f_equal. lia.
Qed.


Lemma fseek_fails w offset :
  2 ^ 63 ≤ offset < 2 ^ 64 → fseek w 0 (long offset) = (0, -1).
Proof.
  intros Ho. unfold fseek, long.
  rewrite uint64_small by lia.
  rewrite (decide_False (P := offset < 2 ^ 63)) by lia.
  by rewrite decide_False by lia.
Qed.



(** ** The option loop, one option at a time *)

Lemma scan_app w argv1 argv2 st :
  scan w st (argv1 ++ argv2) = scan w st argv1 ≫= λ st', scan w st' argv2.
Proof.
  revert st. induction argv1 as [|o argv1 IH]; intros st; [done|].
  cbn [app scan]. destruct (option_case w st o); [apply IH|done].
Qed.

(** An option changes only the local of its letter. *)
Lemma option_case_frame w l out c arg l' out' :
  option_case w (l, out) (c, arg) = Some (l', out') →
  (c ≠ 102 → m_file l' = m_file l)
  ∧ (c ≠ 97 → m_offset l' = m_offset l)
  ∧ (c ≠ 116 → m_type l' = m_type l)
  ∧ (c ≠ 108 → m_length l' = m_length l)
  ∧ (c ≠ 112 → m_pad_value l' = m_pad_value l)
  ∧ (c ≠ 100 → m_data_in l' = m_data_in l)
  ∧ (c ≠ 118 → out' = out).
Proof. intros Hcase. option_case_split Hcase; by split_and!. Qed.

(** What an option stores in the local of its letter. *)
Lemma option_case_sets w l out c arg l' out' :
  option_case w (l, out) (c, arg) = Some (l', out') →
  (c = 102 → m_file l' = resolve_path w (argument arg))
  ∧ (c = 97 → m_offset l' = integer_for (argument arg))
  ∧ (c = 116 → m_type l' = data_type_for (argument arg))
  ∧ (c = 108 → m_length l' = integer_for (argument arg))
  ∧ (c = 112 → m_pad_value l' = integer_for (argument arg) `mod` 256)
  ∧ (c = 100 → m_data_in l' = copystr (argument arg))
  ∧ (c = 118 → out' = out ++ [banner]).
Proof.
  intros Hcase.
  assert (Z.land (integer_for (argument arg)) 255
          = integer_for (argument arg) `mod` 256) as Hland.
  { change 255 with (Z.ones 8). by rewrite Z.land_ones. }
  option_case_split Hcase; split_and!; try done.
Qed.

Lemma scan_frame w argv : ∀ l out l' out',
  scan w (l, out) argv = Some (l', out') →
  (Forall (without_letter 102) argv → m_file l' = m_file l)
  ∧ (Forall (without_letter 97) argv → m_offset l' = m_offset l)
  ∧ (Forall (without_letter 116) argv → m_type l' = m_type l)
  ∧ (Forall (without_letter 108) argv → m_length l' = m_length l)
  ∧ (Forall (without_letter 112) argv → m_pad_value l' = m_pad_value l)
  ∧ (Forall (without_letter 100) argv → m_data_in l' = m_data_in l)
  ∧ (Forall (without_letter 118) argv → out' = out).
Proof.
  induction argv as [|[c arg] argv IH]; intros l out l' out'; cbn [scan].
  - intros [= <- <-]. by split_and!.
  - destruct (option_case w (l, out) (c, arg)) as [[l1 out1]|] eqn:Hcase;
      [|done].
    intros Hscan.
    destruct (IH _ _ _ _ Hscan) as (IH1 & IH2 & IH3 & IH4 & IH5 & IH6 & IH7).
    destruct (option_case_frame _ _ _ _ _ _ _ Hcase)
      as (H1 & H2 & H3 & H4 & H5 & H6 & H7).
    unfold without_letter in *.
    split_and!; intros [Hc Hrest]%Forall_cons; cbn [fst] in Hc.
    + by rewrite IH1, H1.
    + by rewrite IH2, H2.
    + by rewrite IH3, H3.
    + by rewrite IH4, H4.
    + by rewrite IH5, H5.
    + by rewrite IH6, H6.
    + by rewrite IH7, H7.
Qed.


(** ** Decimal text *)

Lemma chars_String a (txt : string) :
  chars (String a txt) = Z.of_N (Ascii.N_of_ascii a) :: chars txt.
Proof. done. Qed.

Lemma pretty_N_char_code (x : N) :
  (x < 10)%N →
  Z.of_N (Ascii.N_of_ascii (pretty_N_char x)) = 48 + Z.of_N x.
Proof.
  intros Hx.
  assert (x = 0 ∨ x = 1 ∨ x = 2 ∨ x = 3 ∨ x = 4 ∨ x = 5 ∨ x = 6 ∨ x = 7
          ∨ x = 8 ∨ x = 9)%N as Hcases by lia.
  by destruct_or!; subst.
Qed.

Lemma digits_digit acc x rest :
  0 ≤ x < 10 → digits acc ((48 + x) :: rest) = digits (10 * acc + x) rest.
Proof.
  intros Hx. cbn [digits]. unfold isdigit.
  rewrite bool_decide_true by lia. f_equal. lia.
Qed.

Lemma digits_stop acc c rest :
  ¬ (48 ≤ c ≤ 57) → digits acc (c :: rest) = acc.
Proof.
  intros Hc. cbn [digits]. unfold isdigit. by rewrite bool_decide_false.
Qed.

(** Reading the digits that [pretty] wrote for [x] appends them to the
    number read so far. *)
Lemma digits_pretty_N_go (x : N) : ∀ txt : string,
  ∃ k, 0 ≤ k ∧ ∀ acc rest,
    digits acc (chars (pretty_N_go x txt) ++ rest)
      = digits (acc * 10 ^ k + Z.of_N x) (chars txt ++ rest).
Proof.
  induction (N.lt_wf_0 x) as [x _ IH]. intros txt.
  destruct (decide (x = 0)%N) as [->|Hx].
  - exists 0. split; [done|]. intros acc rest. rewrite pretty_N_go_0.
    f_equal. lia.
  - rewrite pretty_N_go_step by lia.
    destruct (IH (x `div` 10)%N
                (N.div_lt x 10 ltac:(lia) ltac:(lia))
                (String (pretty_N_char (x `mod` 10)) txt))
      as (k & Hk & Heq).
    exists (k + 1). split; [lia|]. intros acc rest.
    pose proof (N.mod_lt x 10 ltac:(lia)) as Hmod.
    rewrite Heq, chars_String, pretty_N_char_code by done.
    assert (0 ≤ Z.of_N (x `mod` 10) < 10) as Hdigit.
    { apply N2Z.inj_lt in Hmod. change (Z.of_N 10) with 10 in Hmod.
      split; [apply N2Z.is_nonneg|exact Hmod]. }
    cbn [app]. rewrite digits_digit by exact Hdigit. f_equal.
    pose proof (N.div_mod x 10 ltac:(lia)) as Hdiv.
    apply (f_equal Z.of_N) in Hdiv.
    rewrite N2Z.inj_add, N2Z.inj_mul in Hdiv.
    rewrite Z.pow_add_r, Z.pow_1_r by lia.
    change (Z.of_N 10) with 10 in Hdiv. lia.
Qed.

(** What [pretty] writes for a positive number begins with a digit. *)
Lemma pretty_N_go_head (x : N) : ∀ txt : string,
  (0 < x)%N →
  ∃ (n : N) (rest : string),
    (n < 10)%N ∧ pretty_N_go x txt = String (pretty_N_char n) rest.
Proof.
  induction (N.lt_wf_0 x) as [x _ IH]. intros txt Hx.
  rewrite pretty_N_go_step by done.
  destruct (decide (x `div` 10 = 0)%N) as [->|Hdiv].
  - rewrite pretty_N_go_0. eexists _, _. split; [|done].
    by apply N.mod_lt.
  - apply IH; [|by apply N.neq_0_lt_0]. apply N.div_lt; lia.
Qed.

Lemma strtoll_unsigned x tl :
  0 ≤ x < 10 →
  strtoll ((48 + x) :: tl) = saturate (digits 0 ((48 + x) :: tl)).
Proof.
  intros Hx. unfold strtoll. cbn [skip_space]. unfold isspace.
  rewrite bool_decide_false by lia.
  by rewrite !decide_False by lia.
Qed.

Lemma strtoll_negative tl :
  strtoll (45 :: tl) = saturate (- digits 0 tl).
Proof. done. Qed.

Lemma decimal_positive (p : positive) t :
  ∃ x tl, 0 ≤ x < 10
    ∧ chars (pretty (Npos p)) ++ NUL :: t = (48 + x) :: tl
    ∧ digits 0 ((48 + x) :: tl) = Zpos p.
Proof.
  unfold pretty, pretty_N. rewrite decide_False by done.
  destruct (pretty_N_go_head (Npos p) "" ltac:(lia)) as (d & rest & Hd & Heq).
  destruct (digits_pretty_N_go (Npos p) "") as (k & Hk & Hdigits).
  specialize (Hdigits 0 (NUL :: t)).
  rewrite Heq, chars_String, pretty_N_char_code in Hdigits |- * by done.
  exists (Z.of_N d), (chars rest ++ NUL :: t).
  split; [lia|]. split; [done|].
  cbn [app] in Hdigits. rewrite Hdigits.
  change (chars "" ++ NUL :: t) with (NUL :: t).
  rewrite digits_stop by (unfold NUL; lia). lia.
Qed.

(** [strtoll] reads the decimal text of [z] as [z], or as the bound of
    the range of [long long] next to it. *)
Lemma strtoll_pretty (z : Z) t :
  strtoll (chars (pretty z) ++ NUL :: t) = saturate z.
Proof.
  destruct z as [|p|p].
  - done.
  - change (pretty (Z.pos p)) with (pretty (Npos p)).
    destruct (decimal_positive p t) as (x & tl & Hx & -> & Hdigits).
    by rewrite strtoll_unsigned, Hdigits.
  - change (pretty (Z.neg p)) with ("-" +:+ pretty (Npos p)).
    change (chars ("-" +:+ pretty (N.pos p)))
      with (45 :: chars (pretty (Npos p))).
    cbn [app]. rewrite strtoll_negative.
    destruct (decimal_positive p t) as (x & tl & Hx & -> & Hdigits).
    by rewrite Hdigits.
Qed.

Lemma integer_for_pretty (z : Z) :
  integer_for (argument (chars (pretty z))) = saturate z `mod` 2 ^ 64.
Proof. unfold integer_for, uint64, argument. by rewrite strtoll_pretty. Qed.







(** From [2^63] on, a run in integer mode that returns 0 and whose flush
    transfers the bytes has written at the start of the file. *)
Lemma integer_patch_failed_seek w argv l out file content data_in :
  scan w (initial, []) argv = Some (l, out) →
  m_file l = Some file → files w !! c_str file = Some content →
  m_data_in l = Some data_in → m_type l ≠ type_str →
  2 ^ 63 ≤ m_offset l →
  enum_value (m_type l) ≤ Z.of_nat (flush w) →
  exit_status (main w argv) = Returned 0 →
  files_after (main w argv)
    = <[c_str file :=
          write_at content 0
            (little_endian (enum_value (m_type l))
               (integer_for data_in `mod` 2 ^ (8 * enum_value (m_type l))))]>
        (files w).
Proof.
  intros Hscan Hfile Hopen Hdata Htype Hoff Hflush.
  destruct (integer_run w argv l out file content data_in)
    as (-> & _ & ->); [done..|].
  destruct (scan_ranges _ _ _ _ _ _ Hscan initial_ranges_ok) as (Ho & _).
  destruct (int_bytes_shape (m_type l) (integer_for data_in) Htype)
    as (_ & _ & Htake & _). cbv zeta in Htake.
  case_decide as Hr; [done|]. intros _.
  unfold patched. by rewrite reached_full, Htake, fseek_fails by (done || lia).
Qed.

(** C1, as stated, fails.  The decimal argument is read by [strtoll], which
    gives [2^63 - 1] for every number from [2^63] on: with kind [db] and data
    9223372036854775808 the byte handed to [fwrite] and written is 0xFF,
    and the little-endian encoding of the value modulo [2^8] is 0x00.  And
    the bytes are written through a stream whose flush at [fclose] is not
    looked at: on a host whose flush transfers nothing, [main] returns 0
    and no byte is in the file. *)
Lemma C1_counterexample :
  let v := 9223372036854775808 in
  let argv := [opt "f" "x"; opt "t" "db"] ++ [(100, chars (pretty v))] in
  let run := main (host [7; 7] 8) argv in
  let stalled :=
    main (full_at_flush (host [7; 7] 8))
      [opt "f" "x"; opt "t" "db"; opt "d" "65"] in
  chars (pretty v) = chars "9223372036854775808"
  ∧ little_endian 1 (v `mod` 2 ^ (8 * 1)) = [0]
  ∧ calls run
      = [Fopen (chars "x") true; Fseek 0 0;
         Fwrite [255; 0; 0; 0; 0; 0; 0; 0] 1 1; Fclose]
  ∧ take 1 [255; 0; 0; 0; 0; 0; 0; 0] ≠ little_endian 1 (v `mod` 2 ^ (8 * 1))
  ∧ files_after run !! chars "x" = Some [255; 7]
  ∧ exit_status stalled = Returned 0
  ∧ calls stalled
      = [Fopen (chars "x") true; Fseek 0 0;
         Fwrite [65; 0; 0; 0; 0; 0; 0; 0] 1 1; Fclose]
  ∧ files_after stalled !! chars "x" = Some [7; 7].
Proof. cbv zeta. split_and!; by vm_compute. Qed.



(** C2.  A run in integer mode that returns 0 does not always leave the
    bytes at the offset: the offset is handed to [fseek] as a [long], from
    [2^63] on it is negative there, the seek fails, its result is not
    looked at, and the bytes go to the start of the file.  With offset -1,
    kind [db] and data 65 on a file of four bytes 07, [main] returns 0 and
    the file is 41 07 07 07: the byte at 0, outside the range at the
    offset, is changed. *)
Theorem C2_failed_seek_patches_start :
  let w := host [7; 7; 7; 7] 8 in
  let argv := [opt "f" "x"; opt "a" "-1"; opt "t" "db"; opt "d" "65"] in
  let run := main w argv in
  integer_for (argument (chars "-1")) = 2 ^ 64 - 1
  ∧ exit_status run = Returned 0
  ∧ calls run
      = [Fopen (chars "x") true; Fseek (-1) (-1);
         Fwrite [65; 0; 0; 0; 0; 0; 0; 0] 1 1; Fclose]
  ∧ files w !! chars "x" = Some [7; 7; 7; 7]
  ∧ files_after run !! chars "x" = Some [65; 7; 7; 7].
Proof. cbv zeta. split_and!; by vm_compute. Qed.

(** ** String mode *)










(** * Further properties *)

(** ** The option loop *)

(** X1.  The last occurrence of an option decides: when the option [c] with
    argument [arg] is followed by no option of the same letter, the local of
    that letter holds what [arg] gives, whatever came before: the offset and
    the length are [integer_for], the pad value is [integer_for] modulo 256,
    the kind is [data_type_for], the data are the result of [copystr], the
    file is the result of [resolve_path]. *)
Theorem last_option_wins w argv1 argv2 c arg l out :
  scan w (initial, []) (argv1 ++ (c, arg) :: argv2) = Some (l, out) →
  Forall (without_letter c) argv2 →
  (c = 102 → m_file l = resolve_path w (argument arg))
  ∧ (c = 97 → m_offset l = integer_for (argument arg))
  ∧ (c = 116 → m_type l = data_type_for (argument arg))
  ∧ (c = 108 → m_length l = integer_for (argument arg))
  ∧ (c = 112 → m_pad_value l = integer_for (argument arg) `mod` 256)
  ∧ (c = 100 → m_data_in l = copystr (argument arg)).
Proof.
  rewrite scan_app. intros Hscan Hlast.
  destruct (scan w (initial, []) argv1) as [[l1 out1]|]; [|done].
  cbn [mbind option_bind scan] in Hscan.
  destruct (option_case w (l1, out1) (c, arg)) as [[l2 out2]|] eqn:Hcase;
    [|done].
  destruct (scan_frame _ _ _ _ _ _ Hscan) as (H1 & H2 & H3 & H4 & H5 & H6 & _).
  destruct (option_case_sets _ _ _ _ _ _ _ Hcase)
    as (S1 & S2 & S3 & S4 & S5 & S6 & _).
  split_and!; intros ->.
  - by rewrite H1, S1.
  - by rewrite H2, S2.
  - by rewrite H3, S3.
  - by rewrite H4, S4.
  - by rewrite H5, S5.
  - by rewrite H6, S6.
Qed.

Lemma last_option_wins_witness :
  let argv1 := [opt "a" "7"; opt "t" "dw"] in
  let argv2 := [opt "t" "dd"; opt "d" "1"] in
  let l :=
    {| m_file := None; m_offset := 512; m_type := type_dd; m_length := 1;
       m_pad_value := 0; m_data_in := Some [49; 0] |} in
  scan (host [] 0) (initial, []) (argv1 ++ opt "a" "512" :: argv2)
    = Some (l, [])
  ∧ Forall (without_letter 97) argv2
  ∧ m_offset l = integer_for (argument (chars "512")).
Proof.
  cbv zeta.
  assert (Forall (without_letter 97) [opt "t" "dd"; opt "d" "1"]) as Hlast
    by (by repeat constructor).
  split; [by vm_compute|]. split; [exact Hlast|].
  refine (proj1 (proj2 (last_option_wins (host [] 0)
    [opt "a" "7"; opt "t" "dw"] [opt "t" "dd"; opt "d" "1"] 97 (chars "512")
    _ [] _ Hlast)) eq_refl).
  by vm_compute.
Defined.

(** X2.  A local whose option does not occur keeps the value of its
    declaration: offset 0, kind [db], length 1, pad value 0, and no data and
    no file. *)
Theorem option_defaults w argv l out :
  scan w (initial, []) argv = Some (l, out) →
  (Forall (without_letter 102) argv → m_file l = None)
  ∧ (Forall (without_letter 97) argv → m_offset l = 0)
  ∧ (Forall (without_letter 116) argv → m_type l = type_db)
  ∧ (Forall (without_letter 108) argv → m_length l = 1)
  ∧ (Forall (without_letter 112) argv → m_pad_value l = 0)
  ∧ (Forall (without_letter 100) argv → m_data_in l = None).
Proof.
  intros Hscan.
  destruct (scan_frame _ _ _ _ _ _ Hscan) as (H1 & H2 & H3 & H4 & H5 & H6 & _).
  by split_and!.
Qed.

Lemma option_defaults_witness :
  let argv := [opt "f" "x"; opt "d" "1"] in
  let l :=
    {| m_file := Some [120; 0]; m_offset := 0; m_type := type_db;
       m_length := 1; m_pad_value := 0; m_data_in := Some [49; 0] |} in
  scan (host [] 0) (initial, []) argv = Some (l, [])
  ∧ Forall (without_letter 97) argv
  ∧ m_offset l = 0.
Proof.
  cbv zeta.
  assert (Forall (without_letter 97) [opt "f" "x"; opt "d" "1"]) as Hno
    by (by repeat constructor).
  split; [by vm_compute|]. split; [exact Hno|].
  refine (proj1 (proj2 (option_defaults (host [] 0)
    [opt "f" "x"; opt "d" "1"] _ [] _)) Hno).
  by vm_compute.
Defined.




(** ** The version option *)

Lemma stdout_patch w l out : stdout (patch w l out) = out.
Proof.
  unfold patch. repeat case_match; try done.
  all: by repeat case_decide.
Qed.

Lemma option_case_out w l out c arg l' out1 :
  c ≠ 118 →
  option_case w (l, out) (c, arg) = Some (l', out1) →
  out1 = out ∧ ∀ out', option_case w (l, out') (c, arg) = Some (l', out').
Proof.
  intros Hc Hcase. split.
  - by destruct (option_case_frame _ _ _ _ _ _ _ Hcase) as (_&_&_&_&_&_&->).
  - intros out'. unfold option_case in *.
    repeat case_decide; simplify_option_eq; done.
Qed.

Lemma option_case_version w l out arg :
  option_case w (l, out) (118, arg) = Some (l, out ++ [banner]).
Proof. done. Qed.

Lemma scan_version w argv : ∀ l0 out0 l out,
  scan w (l0, out0) argv = Some (l, out) →
  out = out0 ++ replicate (length (filter (with_letter 118) argv)) banner
  ∧ ∀ out', scan w (l0, out') (filter (without_letter 118) argv)
            = Some (l, out').
Proof.
  induction argv as [|[c arg] argv IH]; intros l0 out0 l out; cbn [scan].
  - intros [= <- <-]. by rewrite app_nil_r.
  - rewrite !filter_cons. unfold with_letter at 1, without_letter at 1.
    cbn [fst]. destruct (decide (c = 118)) as [->|Hc].
    + rewrite option_case_version. intros Hscan.
      destruct (IH _ _ _ _ Hscan) as [-> Hrest].
      rewrite decide_False by (by intros []).
      split; [|done]. cbn [length replicate].
      by rewrite <- app_assoc.
    + destruct (option_case w (l0, out0) (c, arg)) as [[l1 out1]|] eqn:Hcase;
        [|done].
      intros Hscan.
      destruct (option_case_out _ _ _ _ _ _ _ Hc Hcase) as [-> Hany].
      destruct (IH _ _ _ _ Hscan) as [-> Hrest].
      rewrite decide_True by done. split; [done|].
      intros out'. cbn [scan]. by rewrite Hany.
Qed.

(** X4.  The version option only prints: each occurrence adds the banner
    line to the standard output, nothing else is printed there, the run goes
    on, and the locals are those of the argument vector without the version
    options. *)
Theorem version_only_prints w argv l out :
  scan w (initial, []) argv = Some (l, out) →
  out = replicate (length (filter (with_letter 118) argv)) banner
  ∧ stdout (main w argv) = out
  ∧ scan w (initial, []) (filter (without_letter 118) argv) = Some (l, [])
  ∧ main w argv = patch w l out.
Proof.
  intros Hscan. destruct (scan_version _ _ _ _ _ _ Hscan) as [Hout Hrest].
  split_and!; [done| |done|].
  - unfold main. rewrite Hscan. apply stdout_patch.
  - unfold main. by rewrite Hscan.
Qed.

Lemma version_only_prints_witness :
  let argv := [opt "v" ""; opt "a" "3"; opt "v" ""] in
  let l :=
    {| m_file := None; m_offset := 3; m_type := type_db; m_length := 1;
       m_pad_value := 0; m_data_in := None |} in
  scan (host [] 0) (initial, []) argv = Some (l, [banner; banner])
  ∧ stdout (main (host [] 0) argv) = [banner; banner]
  ∧ exit_status (main (host [] 0) argv) = Returned 1.
Proof.
  cbv zeta. split; [by vm_compute|]. split; [|by vm_compute].
  refine (proj1 (proj2 (version_only_prints (host [] 0)
    [opt "v" ""; opt "a" "3"; opt "v" ""] _ [banner; banner] _))).
  by vm_compute.
Defined.

(** ** The order of the options *)

Lemma option_case_swap w st a b :
  a.1 ≠ b.1 →
  (option_case w st a ≫= λ st', option_case w st' b)
    = (option_case w st b ≫= λ st', option_case w st' a).
Proof.
  destruct st as [l out], a as [c1 arg1], b as [c2 arg2]. cbn [fst].
  intros Hne. unfold option_case.
  destruct (resolve_path w (argument arg1)) as [f1|],
    (resolve_path w (argument arg2)) as [f2|],
    (copystr (argument arg1)) as [d1|],
    (copystr (argument arg2)) as [d2|];
    repeat case_decide; simplify_eq; cbn; try done;
    repeat case_decide; simplify_eq; cbn; try done.
Qed.

(** X5.  Options of different letters may change places: two neighbours of
    different letters, swapped, give the same outcome of the run. *)
Theorem options_commute w argv1 a b argv2 :
  a.1 ≠ b.1 →
  main w (argv1 ++ a :: b :: argv2) = main w (argv1 ++ b :: a :: argv2).
Proof.
  intros Hne. unfold main. rewrite !scan_app.
  destruct (scan w (initial, []) argv1) as [st|]; [|done].
  cbn [mbind option_bind scan].
  pose proof (option_case_swap w st a b Hne) as Hswap.
  destruct (option_case w st a) as [sta|], (option_case w st b) as [stb|];
    cbn [mbind option_bind] in Hswap.
  - by rewrite Hswap.
  - by rewrite Hswap.
  - by rewrite <- Hswap.
  - done.
Qed.

Lemma options_commute_witness :
  let w := host [7; 7; 7; 7] 8 in
  (opt "t" "dw").1 ≠ (opt "d" "258").1
  ∧ main w ([opt "f" "x"] ++ opt "t" "dw" :: opt "d" "258" :: [])
    = main w ([opt "f" "x"] ++ opt "d" "258" :: opt "t" "dw" :: []).
Proof.
  cbv zeta.
  assert ((opt "t" "dw").1 ≠ (opt "d" "258").1) as Hne by (by vm_compute).
  split; [exact Hne|].
  exact (options_commute (host [7; 7; 7; 7] 8) [opt "f" "x"]
           (opt "t" "dw") (opt "d" "258") [] Hne).
Defined.

(** ** [resolve_path] *)

Lemma resolve_path_eq w path :
  resolve_path w path
    = match wordexp w (c_str path) with
      | [] => None
      | word :: _ => Some (c_str word ++ [NUL])
      end.
Proof.
  unfold resolve_path. destruct (wordexp w (c_str path)) as [|word ?]; [done|].
  pose proof (c_str_nul_free word) as Hword.
  rewrite strlen_terminated by done. cbn [mbind option_bind].
  unfold memcpy, calloc.
  rewrite decide_True
    by (rewrite length_replicate, length_app; cbn [length]; lia).
  rewrite Nat2Z.id, take_app_length, drop_replicate.
  by replace (length (c_str word) + 1 - length (c_str word))%nat
    with 1%nat by lia.
Qed.

(** X6.  [resolve_path] returns a new array with the string of the first
    word of the expansion and its terminator, and uses no other word; with
    an expansion of no word it has no defined result.  The string of the
    result is the word, so this is the file that [fopen] is given. *)
Theorem resolve_path_first_word w optarg :
  (wordexp w (c_str optarg) = [] ↔ resolve_path w (argument optarg) = None)
  ∧ ∀ word words, wordexp w (c_str optarg) = word :: words →
      ∃ file, resolve_path w (argument optarg) = Some file
        ∧ file = c_str word ++ [NUL]
        ∧ c_str file = c_str word
        ∧ strlen file = Some (length (c_str word)).
Proof.
  rewrite resolve_path_eq, c_str_argument.
  pose proof (c_str_nul_free) as Hfree. split.
  - by destruct (wordexp w (c_str optarg)).
  - intros word words ->. eexists. split; [done|].
    split; [done|]. split.
    + by apply c_str_terminated.
    + by apply strlen_terminated.
Qed.

(** ** The string block in general *)

Lemma strlen_split data_in len :
  strlen data_in = Some len →
  ∃ s t, data_in = s ++ NUL :: t ∧ nul_free s ∧ length s = len.
Proof.
  revert len. induction data_in as [|c data_in IH]; intros len; [done|].
  cbn [strlen]. case_decide as Hc.
  - intros [= <-]. exists [], data_in. rewrite Hc.
    split; [done|]. split; [constructor|done].
  - destruct (strlen data_in) as [len'|]; [|done].
    intros [= <-]. destruct (IH len' eq_refl) as (s & t & -> & Hs & <-).
    exists (c :: s), t. split; [done|]. split; [|done].
    by apply nul_free_cons.
Qed.

Lemma drop_fresh_last w (n : nat) :
  drop n (fresh w <$> seq 0 (Z.to_nat (Z.of_nat n + 1))) = [fresh w n].
Proof.
  rewrite <- fmap_drop, drop_seq.
  replace (Z.to_nat (Z.of_nat n + 1) - n)%nat with 1%nat by lia. done.
Qed.

Lemma uint32_le z : 0 ≤ z → 0 ≤ uint32 z ≤ z.
Proof.
  intros. unfold uint32. split.
  - by apply Z.mod_pos_bound.
  - apply Z.mod_le; lia.
Qed.

(** The buffer of the string block, whatever the length of the string,
    when the host grants it: [n] bytes of the data, then the pad bytes up
    to [length], then one byte that was not initialised; [n] is the smaller
    of [length] and the string length modulo [2^32]. *)
Lemma str_buffer_eq w data_in len L p :
  strlen data_in = Some len → 0 ≤ L < 2 ^ 64 - 1 →
  L + 1 ≤ Z.pos (heap w) →
  let n := Z.to_nat (uint32 (Z.of_nat len) `min` L) in
  str_buffer w data_in L p
    = Some (take n data_in ++ replicate (Z.to_nat L - n) p
            ++ [fresh w (Z.to_nat L)]).
Proof.
  intros Hlen HL Hheap. cbv zeta. unfold str_buffer. rewrite Hlen.
  cbn [mbind option_bind]. rewrite uint64_small by lia.
  rewrite malloc_granted by done. cbn [mbind option_bind].
  destruct (strlen_split _ _ Hlen) as (s & t & -> & _ & Hs).
  pose proof (uint32_le (Z.of_nat len)) as Hle.
  unfold memset.
  rewrite (decide_True (P := L ≤ _))
    by (rewrite length_fmap, length_seq; lia).
  cbn [mbind option_bind].
  replace (L + 1) with (Z.of_nat (Z.to_nat L) + 1) at 1
    by (by rewrite Z2Nat.id by lia).
  rewrite drop_fresh_last.
  assert ((if decide (uint32 (Z.of_nat len) > L) then L
           else uint32 (Z.of_nat len)) = uint32 (Z.of_nat len) `min` L) as ->
    by (case_decide; lia).
  unfold memcpy. rewrite decide_True.
  2:{ rewrite !length_app, length_replicate. cbn [length]. lia. }
  f_equal. f_equal.
  rewrite drop_app_le by (rewrite length_replicate; lia).
  by rewrite drop_replicate.
Qed.

(** The three cases of the string block. *)
Lemma str_buffer_cases w data_in len L p :
  strlen data_in = Some len → 0 ≤ L < 2 ^ 64 →
  let n := Z.to_nat (uint32 (Z.of_nat len) `min` L) in
  (L = 2 ^ 64 - 1 → str_buffer w data_in L p = None)
  ∧ (L < 2 ^ 64 - 1 → Z.pos (heap w) < L + 1 →
       str_buffer w data_in L p = None)
  ∧ (L < 2 ^ 64 - 1 → L + 1 ≤ Z.pos (heap w) →
       ∃ buffer, str_buffer w data_in L p = Some buffer
         ∧ Z.of_nat (length buffer) = L + 1
         ∧ take (Z.to_nat L) buffer
             = take n data_in ++ replicate (Z.to_nat L - n) p).
Proof.
  intros Hlen HL. cbv zeta. split; [|split].
  - intros ->. apply str_buffer_wraps.
  - intros HL' Hheap. apply str_buffer_refused; lia.
  - intros HL' Hheap.
    rewrite (str_buffer_eq w data_in len L p) by (done || lia).
    destruct (strlen_split _ _ Hlen) as (s & t & -> & _ & Hs).
    pose proof (uint32_le (Z.of_nat len)) as Hle.
    eexists. split; [done|].
    assert (length (take (Z.to_nat (uint32 (Z.of_nat len) `min` L))
                      (s ++ NUL :: t)
                    ++ replicate (Z.to_nat L
                        - Z.to_nat (uint32 (Z.of_nat len) `min` L)) p)
            = Z.to_nat L) as Hfirst.
    { rewrite length_app, length_take, length_replicate, length_app.
      cbn [length]. lia. }
    split.
    + rewrite app_assoc, length_app, Hfirst. cbn [length]. lia.
    + rewrite app_assoc. by rewrite take_app_length'.
Qed.



(** ** What [fwrite] is given *)

Lemma length_int_bytes type v : type ≠ type_str → length (int_bytes type v) = 8%nat.
Proof. intros Htype. by destruct (int_bytes_shape type v Htype) as (_ & ? & _). Qed.

Lemma handed_within w l ptr n :
  data_in_ok l → ranges_ok l → handed w l ptr n →
  0 ≤ n ≤ Z.of_nat (length ptr).
Proof.
  intros Hdata (_ & HL & _)
    [(Htype & d & Hd & -> & ->)|(Htype & d & Hd & Hbuf & ->)].
  - rewrite length_int_bytes by done.
    pose proof (enum_value_range (m_type l) Htype). lia.
  - destruct (Hdata d Hd) as (s & t & -> & Hs).
    pose proof (strlen_terminated s t Hs) as Hlen.
    destruct (str_buffer_cases w (s ++ NUL :: t) (length s) (m_length l)
                (m_pad_value l) Hlen HL) as (Hwrap & Hnull & Hfits).
    destruct (decide (m_length l = 2 ^ 64 - 1)) as [Heq|Hne].
    { rewrite (Hwrap Heq) in Hbuf. done. }
    destruct (decide (m_length l + 1 ≤ Z.pos (heap w))) as [Hheap|Hheap].
    + destruct Hfits as (buffer & Hbuf' & Hlength & _); [lia|done|].
      rewrite Hbuf in Hbuf'. injection Hbuf' as <-. lia.
    + rewrite Hnull in Hbuf by lia. done.
Qed.

(** X8.  In every run each call of [fwrite] stays inside the array it is
    given: the count asked for is not negative and not more than the bytes
    of the array, and the count returned is between 0 and the count asked
    for.  A run calls [fwrite] at most once. *)
Theorem fwrite_within_array w argv :
  (∀ ptr n r, Fwrite ptr n r ∈ calls (main w argv) →
     0 ≤ r ≤ n ∧ n ≤ Z.of_nat (length ptr))
  ∧ (∀ ptr n r ptr' n' r',
       Fwrite ptr n r ∈ calls (main w argv) →
       Fwrite ptr' n' r' ∈ calls (main w argv) →
       ptr = ptr' ∧ n = n' ∧ r = r').
Proof.
  destruct (main_cases w argv)
    as [(_ & _ & _ & Hcalls & _)
       |(l & out & Hscan & Hrun & Hdata & Hranges
         & [(_ & _ & _ & _ & Hcalls & _)
           |[(file & _ & _ & _ & _ & _ & Hcalls & _)
            |(file & content & _ & Hfile & Hopen)]])].
  - split; [intros ???|intros ??????]; rewrite Hcalls;
      by intros ?%elem_of_nil.
  - split; [intros ???|intros ??????]; rewrite Hcalls;
      by intros ?%elem_of_nil.
  - split; [intros ???|intros ??????]; rewrite Hcalls;
      by intros ?%list_elem_of_singleton.
  - rewrite Hrun.
    destruct (patch_opened w l out file content Hfile Hopen)
      as [(_ & -> & _)|(ptr0 & n0 & Hhanded & _ & -> & _)].
    + split; [intros ???|intros ??????];
        rewrite !elem_of_cons, elem_of_nil; by intros [?|[?|[]]].
    + pose proof (handed_within w l ptr0 n0 Hdata Hranges Hhanded) as Hn.
      pose proof (fwrite_le w n0) as Hle.
      assert (0 ≤ fwrite w n0) by (unfold fwrite; lia).
      split.
      * intros ptr n r Hin. apply only_fwrite in Hin as (-> & -> & ->). lia.
      * intros ptr n r ptr' n' r' Hin Hin'.
        apply only_fwrite in Hin as (-> & -> & ->).
        by apply only_fwrite in Hin' as (-> & -> & ->).
Qed.

(** ** The files after a run *)

Lemma write_at_grows f pos data :
  (length f ≤ length (write_at f pos data))%nat.
Proof.
  destruct data as [|b data]; [done|].
  rewrite write_at_length by done. lia.
Qed.

(** X9.  A run creates no file and removes none, and shortens none; the one
    file it can change is the file it opened, and only a run that returns 0
    or 3 changes it. *)
Theorem files_kept w argv :
  dom (files_after (main w argv)) = dom (files w)
  ∧ ∀ path content, files w !! path = Some content →
      ∃ content', files_after (main w argv) !! path = Some content'
        ∧ (length content ≤ length content')%nat
        ∧ (content' ≠ content →
             Fopen path true ∈ calls (main w argv)
             ∧ (exit_status (main w argv) = Returned 0
                ∨ exit_status (main w argv) = Returned 3)).
Proof.
  assert (files_after (main w argv) = files w →
    dom (files_after (main w argv)) = dom (files w)
    ∧ ∀ path content, files w !! path = Some content →
        ∃ content', files_after (main w argv) !! path = Some content'
          ∧ (length content ≤ length content')%nat
          ∧ (content' ≠ content →
               Fopen path true ∈ calls (main w argv)
               ∧ (exit_status (main w argv) = Returned 0
                  ∨ exit_status (main w argv) = Returned 3))) as Hsame.
  { intros ->. split; [done|]. intros path content Hpath.
    exists content. by split_and!. }
  destruct (main_cases w argv)
    as [(_ & _ & _ & _ & Hafter)
       |(l & out & Hscan & Hrun & Hdata & Hranges
         & [(_ & _ & _ & _ & _ & Hafter)
           |[(file & _ & _ & _ & _ & _ & _ & Hafter)
            |(file & content0 & _ & Hfile & Hopen)]])]; [by apply Hsame..|].
  destruct (patch_opened w l out file content0 Hfile Hopen)
    as [(_ & _ & Hafter & _)|(ptr & n & _ & Hexit & Hcalls & _ & Hafter)].
  { apply Hsame. by rewrite Hrun. }
  rewrite Hrun, Hexit, Hcalls, Hafter. unfold patched. split.
  - by apply dom_insert_lookup_L.
  - intros path content Hpath.
    destruct (decide (path = c_str file)) as [->|Hne].
    + rewrite lookup_insert_eq. eexists. split; [done|].
      rewrite Hopen in Hpath. injection Hpath as <-.
      split; [apply write_at_grows|]. intros _. split.
      * apply elem_of_app. left. left.
      * case_decide; auto.
    + rewrite lookup_insert_ne by done. exists content. by split_and!.
Qed.

(** ** Runs without a defined end *)





(** ** The calls of a run, by its exit code *)


(** X12.  A short write is not undone: when [main] returns 3 the file
    holds, from the position of the write, the first [r] bytes of what was
    to be written, [r] being the count [fwrite] returned, which is all the
    room the file had; the one line on the standard error names [r]. *)
Theorem short_write_stays w argv :
  exit_status (main w argv) = Returned 3 →
  ∃ l out file content ptr n,
    scan w (initial, []) argv = Some (l, out)
    ∧ m_file l = Some file ∧ files w !! c_str file = Some content
    ∧ handed w l ptr n
    ∧ Z.of_nat (room w) < n
    ∧ Fwrite ptr n (Z.of_nat (room w)) ∈ calls (main w argv)
    ∧ stderr (main w argv) = [short_write (Z.of_nat (room w))]
    ∧ files_after (main w argv)
        = <[c_str file :=
              write_at content (fseek w 0 (long (m_offset l))).1
                (take (room w) ptr)]> (files w).
Proof.
  destruct (main_cases w argv)
    as [(_ & _ & -> & _)
       |(l & out & Hscan & Hrun & Hdata & Hranges
         & [(_ & _ & -> & _)
           |[(file & _ & _ & _ & -> & _)
            |(file & content & _ & Hfile & Hopen)]])]; try done.
  rewrite Hrun.
  destruct (patch_opened w l out file content Hfile Hopen)
    as [(-> & _)|(ptr & n & Hhanded & -> & -> & -> & ->)]; [done|].
  case_decide as Hr; [|done]. intros _.
  assert (fwrite w n = Z.of_nat (room w)) as Hroom
    by (unfold fwrite in *; lia).
  assert (Z.of_nat (room w) < n) by (unfold fwrite in *; lia).
  exists l, out, file, content, ptr, n.
  rewrite (reached_short w n Hr), Hroom.
  split_and!; try done.
  - apply fwrite_in_calls.
  - unfold patched. by rewrite Nat2Z.id.
Qed.

Lemma short_write_stays_witness :
  let w := host [7; 7; 7; 7] 1 in
  let argv := [opt "f" "x"; opt "t" "dw"; opt "d" "513"] in
  exit_status (main w argv) = Returned 3
  ∧ stderr (main w argv)
      = ["Something went wrong when patching file. Wrote 1 bytes."]
  ∧ files_after (main w argv) !! chars "x" = Some [1; 7; 7; 7].
Proof.
  cbv zeta.
  assert (exit_status (main (host [7; 7; 7; 7] 1)
            [opt "f" "x"; opt "t" "dw"; opt "d" "513"]) = Returned 3)
    as Hexit by (by vm_compute).
  split; [exact Hexit|].
  destruct (short_write_stays _ _ Hexit)
    as (l & out & file & content & ptr & n & _ & _ & _ & _ & _ & _ & Herr & _).
  split; [by rewrite Herr|by vm_compute].
Defined.

(** ** Running again, in full *)

Lemma str_buffer_after w o data_in L p :
  str_buffer (after w o) data_in L p = str_buffer w data_in L p.
Proof. done. Qed.

Lemma fwrite_after w o n : fwrite (after w o) n = fwrite w n.
Proof. done. Qed.

Lemma patched_again w o path content pos ptr r :
  files_after o = patched w path content pos ptr r →
  patched (after w o) path
    (write_at content pos (take (Z.to_nat r) ptr)) pos ptr r
  = patched w path content pos ptr r.
Proof.
  intros Hafter. unfold patched in *. cbn [after files].
  by rewrite Hafter, insert_insert_eq, write_at_idem.
Qed.

Lemma outcome_eq (o1 o2 : outcome) :
  exit_status o1 = exit_status o2 → stdout o1 = stdout o2 →
  stderr o1 = stderr o2 → calls o1 = calls o2 →
  files_after o1 = files_after o2 → o1 = o2.
Proof. destruct o1, o2. cbn. by intros -> -> -> -> ->. Qed.

Lemma stderr_undefined w l out :
  exit_status (patch w l out) = Undefined → stderr (patch w l out) = [].
Proof.
  unfold patch. repeat case_match; try done.
  all: by repeat case_decide.
Qed.

Lemma patch_again w l out :
  patch (after w (patch w l out)) l out = patch w l out.
Proof.
  set (w' := after w (patch w l out)).
  assert (files w' = files_after (patch w l out)) as Hfiles by done.
  destruct (m_file l) as [file|] eqn:Hfile.
  2:{ unfold patch. rewrite Hfile, Hfiles.
      unfold patch. by rewrite Hfile. }
  destruct (files w !! c_str file) as [content|] eqn:Hopen.
  2:{ assert (files w' = files w) as Hsame
        by (rewrite Hfiles; unfold patch; by rewrite Hfile, Hopen).
      unfold patch. by rewrite Hfile, Hsame, Hopen. }
  apply outcome_eq; [| by rewrite !stdout_patch | | |].
  all: destruct (patch_opened w l out file content Hfile Hopen)
    as [(Hexit & Hcalls & Hafter & Hnone)
       |(ptr & n & Hhanded & Hexit & Hcalls & Herr & Hafter)].
  all: rewrite Hafter in Hfiles.
  all: try
    (assert (files w' !! c_str file = Some content) as Hopen'
       by (by rewrite Hfiles);
     destruct (patch_opened w' l out file content Hfile Hopen')
       as [(Hexit' & Hcalls' & Hafter' & _)|(ptr' & n' & Hhanded' & _)];
     [|by destruct (Hnone ptr' n')]).
  all: try
    (assert (files w' !! c_str file
             = Some (write_at content (fseek w 0 (long (m_offset l))).1
                       (take (Z.to_nat (reached w n)) ptr))) as Hopen'
       by (rewrite Hfiles; apply lookup_insert_eq);
     destruct (patch_opened w' l out file _ Hfile Hopen')
       as [(_ & _ & _ & Hnone')
          |(ptr' & n' & Hhanded' & Hexit' & Hcalls' & Herr' & Hafter')];
     [by destruct (Hnone' ptr n)|];
     destruct (handed_functional w l ptr n ptr' n' Hhanded Hhanded')
       as [<- <-];
     change (fwrite w' n) with (fwrite w n) in *;
     change (reached w' n) with (reached w n) in *).
  - by rewrite Hexit, Hexit'.
  - by rewrite Hexit, Hexit'.
  - rewrite !stderr_undefined; done.
  - by rewrite Herr, Herr'.
  - by rewrite Hcalls, Hcalls'.
  - by rewrite Hcalls, Hcalls'.
  - by rewrite Hafter, Hafter', Hfiles.
  - rewrite Hafter, Hafter'. unfold patched at 1. rewrite Hfiles.
    unfold patched. by rewrite insert_insert_eq, write_at_idem.
Qed.

(** X13.  A second run with the same argument vector, on the files the
    first run left, has the whole outcome of the first: the same exit code,
    the same lines on the standard output and the standard error, the same
    calls and the same files. *)
Theorem run_again w argv :
  main (after w (main w argv)) argv = main w argv.
Proof.
  unfold main at 1. rewrite scan_after.
  destruct (scan w (initial, []) argv) as [[l out]|] eqn:Hscan.
  - assert (main w argv = patch w l out) as ->
      by (unfold main; by rewrite Hscan).
    apply patch_again.
  - unfold main. by rewrite Hscan.
Qed.

(** ** Memory that was not initialised *)

Lemma scan_with_fresh w f argv : ∀ st,
  scan (with_fresh w f) st argv = scan w st argv.
Proof.
  induction argv as [|a argv IH]; intros st; cbn [scan]; [done|].
  assert (option_case (with_fresh w f) st a = option_case w st a) as -> by done.
  destruct (option_case w st a); [apply IH|done].
Qed.

Lemma patch_with_fresh w f l out :
  data_in_ok l → ranges_ok l →
  exit_status (patch (with_fresh w f) l out) = exit_status (patch w l out)
  ∧ stdout (patch (with_fresh w f) l out) = stdout (patch w l out)
  ∧ stderr (patch (with_fresh w f) l out) = stderr (patch w l out)
  ∧ files_after (patch (with_fresh w f) l out) = files_after (patch w l out).
Proof.
  intros Hdata Hranges. pose proof Hranges as (_ & HL & _).
  rewrite !stdout_patch.
  unfold patch. cbn [with_fresh files].
  destruct (m_file l) as [file|]; [|done].
  destruct (files w !! c_str file) as [content|]; [|done].
  change (fseek (with_fresh w f)) with (fseek w).
  change (flushed (with_fresh w f)) with (flushed w).
  destruct (fseek w 0 (long (m_offset l))) as [pos ret].
  change (fwrite (with_fresh w f)) with (fwrite w).
  destruct (decide (m_type l ≠ type_str)) as [Htype|Htype].
  { destruct (m_data_in l); [|done]. by case_decide. }
  destruct (m_data_in l) as [d|] eqn:Hd; [|done].
  destruct (Hdata d Hd) as (s & t & -> & Hs).
  pose proof (strlen_terminated s t Hs) as Hlen.
  destruct (decide (m_length l = 2 ^ 64 - 1)) as [Hw|Hw].
  { rewrite Hw, !str_buffer_wraps. done. }
  destruct (decide (m_length l + 1 ≤ Z.pos (heap w))) as [Hheap|Hheap].
  2:{ rewrite !str_buffer_refused by (cbn [with_fresh heap]; lia). done. }
  rewrite !(str_buffer_eq _ _ _ _ _ Hlen) by (done || lia).
  set (n := Z.to_nat (uint32 (Z.of_nat (length s)) `min` m_length l)).
  set (first := take n (s ++ NUL :: t)
                ++ replicate (Z.to_nat (m_length l) - n) (m_pad_value l)).
  assert (length first = Z.to_nat (m_length l)) as Hfirst.
  { pose proof (uint32_le (Z.of_nat (length s))).
    unfold first, n.
    rewrite length_app, length_take, length_replicate, length_app.
    cbn [length]. lia. }
  assert (∀ x, take (Z.to_nat (fwrite w (m_length l)))
                 (take n (s ++ NUL :: t)
                  ++ replicate (Z.to_nat (m_length l) - n) (m_pad_value l)
                  ++ [x])
               = take (Z.to_nat (fwrite w (m_length l))) first) as Htake.
  { intros x. rewrite app_assoc. fold first.
    apply take_app_le. pose proof (fwrite_le w (m_length l)). lia. }
  assert (∀ x, take (Z.to_nat (flushed w (fwrite w (m_length l))))
                 (take n (s ++ NUL :: t)
                  ++ replicate (Z.to_nat (m_length l) - n) (m_pad_value l)
                  ++ [x])
               = take (Z.to_nat (flushed w (fwrite w (m_length l)))) first)
    as Hflushed.
  { intros x. rewrite app_assoc. fold first.
    apply take_app_le. pose proof (fwrite_le w (m_length l)).
    unfold flushed. lia. }
  unfold patched. cbn [with_fresh files]. rewrite !Htake, !Hflushed.
  by case_decide.
Qed.

(** X14.  No byte that was not initialised reaches a file: the exit code,
    what is printed and the files after a run are the same whatever the
    memory handed out by [malloc] held. *)
Theorem fresh_memory_not_written w f argv :
  exit_status (main (with_fresh w f) argv) = exit_status (main w argv)
  ∧ stdout (main (with_fresh w f) argv) = stdout (main w argv)
  ∧ stderr (main (with_fresh w f) argv) = stderr (main w argv)
  ∧ files_after (main (with_fresh w f) argv) = files_after (main w argv).
Proof.
  unfold main. rewrite scan_with_fresh.
  destruct (scan w (initial, []) argv) as [[l out]|] eqn:Hscan; [|done].
  apply patch_with_fresh.
  - by apply (scan_data_in _ _ _ _ _ _ Hscan initial_data_in_ok).
  - by apply (scan_ranges _ _ _ _ _ _ Hscan initial_ranges_ok).
Qed.

(** ** The file after a run that returns 0 *)





(** ** The position of the write *)




(** ** The cascade of the integer block *)

Lemma is_byte_little_endian width x :
  0 ≤ width → Forall is_byte (little_endian width x).
Proof.
  intros. unfold little_endian, is_byte.
  apply (Z_to_little_endian_bound width 8 x); lia.
Qed.

(** X18.  The integer block stores bytes only, and the kinds agree where
    they overlap: the bytes that a kind writes are the first bytes of what
    every wider kind writes for the same value. *)
Theorem cascade_prefix (type type' : data_type) (v : Z) :
  type ≠ type_str → type' ≠ type_str →
  enum_value type ≤ enum_value type' →
  Forall is_byte (int_bytes type v)
  ∧ take (Z.to_nat (enum_value type)) (int_bytes type' v)
      = take (Z.to_nat (enum_value type)) (int_bytes type v).
Proof.
  intros Htype Htype' Hle. split.
  - rewrite int_bytes_little_endian by done. apply Forall_app. split.
    + apply is_byte_little_endian.
      pose proof (enum_value_range type Htype). lia.
    + by apply Forall_replicate.
  - rewrite !int_bytes_little_endian by done.
    destruct type, type'; try done; cbn [enum_value] in *; try lia;
      little_endian_unfold; reflexivity.
Qed.

Lemma cascade_prefix_witness :
  take 2 (int_bytes type_dq 305419896) = take 2 (int_bytes type_dw 305419896).
Proof.
  refine (proj2 (cascade_prefix type_dw type_dq 305419896 _ _ _)); done.
Defined.

(** ** The array that [copystr] returns *)

(** X19.  For every argument [copystr] returns an array of one byte more
    than the string of the argument: the decoded string, which has no
    terminator inside, followed by zeros to the end of the array; so the
    result is a terminated string whose length is that of the decoded
    string.  Only the characters before the first terminator of the
    argument are decoded. *)
Theorem copystr_array optarg :
  ∃ result out,
    copystr (argument optarg) = Some result
    ∧ decoded (argument optarg) = Some out
    ∧ out = unescape (c_str optarg)
    ∧ nul_free out
    ∧ length result = S (length (c_str optarg))
    ∧ result = out ++ replicate (length result - length out) NUL
    ∧ strlen result = Some (length out).
Proof.
  destruct (argument_terminated optarg) as [t ->].
  pose proof (c_str_nul_free optarg) as Hs.
  pose proof (unescape_length_le (c_str optarg)) as Hle.
  pose proof (unescape_nul_free _ Hs) as Hout.
  rewrite copystr_unescape, decoded_unescape by done.
  eexists _, _. split; [done|]. split; [done|]. split; [done|].
  split; [done|].
  assert (length (unescape (c_str optarg)
                  ++ replicate (length (c_str optarg) + 1
                                - length (unescape (c_str optarg))) NUL)
          = S (length (c_str optarg))) as Hlen
    by (rewrite length_app, length_replicate; lia).
  split; [done|]. split.
  - rewrite Hlen. do 2 f_equal. lia.
  - replace (length (c_str optarg) + 1 - length (unescape (c_str optarg)))%nat
      with (S (length (c_str optarg) - length (unescape (c_str optarg))))
      by lia.
    by apply strlen_terminated.
Qed.

(** ** Decoding a concatenation *)

Lemma unescape_app s1 s2 :
  last s1 ≠ Some backslash
    ∨ (head s2 ≠ Some char_r ∧ head s2 ≠ Some char_n) →
  unescape (s1 ++ s2) = unescape s1 ++ unescape s2.
Proof.
  induction s1 as [| |c d s IH1 IH2] using lookahead_ind; intros Hjoin.
  - done.
  - cbn [app]. destruct s2 as [|e s2]; [done|].
    rewrite unescape_cons_cons. cbn [last head] in Hjoin.
    rewrite !decide_False; [done|intros [-> ->]|intros [-> ->]];
      destruct Hjoin as [?|[? ?]]; done.
  - change ((c :: d :: s) ++ s2) with (c :: d :: (s ++ s2)).
    rewrite !unescape_cons_cons.
    change (d :: s ++ s2) with ((d :: s) ++ s2).
    rewrite IH2 by done.
    destruct s as [|e s]; [by repeat case_decide|].
    rewrite IH1 by done. by repeat case_decide.
Qed.

(** X20.  Decoding goes through a concatenation, unless the first part ends
    with a backslash and the second begins with r or n (which together are
    an escape): otherwise the decoded string of the two arguments joined is
    the decoded string of the first followed by that of the second. *)
Theorem decoded_app s1 s2 out1 out2 :
  nul_free s1 → nul_free s2 →
  last s1 ≠ Some backslash
    ∨ (head s2 ≠ Some char_r ∧ head s2 ≠ Some char_n) →
  decoded (argument s1) = Some out1 →
  decoded (argument s2) = Some out2 →
  decoded (argument (s1 ++ s2)) = Some (out1 ++ out2).
Proof.
  intros Hs1 Hs2 Hjoin. unfold argument.
  rewrite !decoded_unescape by (done || by apply nul_free_app).
  intros [= <-] [= <-]. by rewrite unescape_app.
Qed.

Lemma decoded_app_witness :
  decoded (argument (chars "a\n" ++ chars "b\r"))
    = Some ([97; 10] ++ [98; 13]).
Proof.
  apply (decoded_app (chars "a\n") (chars "b\r")).
  - by repeat constructor.
  - by repeat constructor.
  - left. by vm_compute.
  - by vm_compute.
  - by vm_compute.
Defined.

(** ** Decimal numbers *)

(** X21.  [integer_for] reads back the decimal text of every integer: a
    number of the signed 64-bit range gives its value modulo [2^64] (a
    negative number its two's complement), a larger one gives [2^63 - 1],
    a smaller one [2^63]. *)
Theorem integer_for_decimal (z : Z) :
  integer_for (argument (chars (pretty z))) = saturate z `mod` 2 ^ 64
  ∧ (- (2 ^ 63) ≤ z < 2 ^ 63 →
       integer_for (argument (chars (pretty z))) = z `mod` 2 ^ 64)
  ∧ (2 ^ 63 ≤ z → integer_for (argument (chars (pretty z))) = 2 ^ 63 - 1)
  ∧ (z < - (2 ^ 63) → integer_for (argument (chars (pretty z))) = 2 ^ 63).
Proof.
  assert (integer_for (argument (chars (pretty z)))
          = saturate z `mod` 2 ^ 64) as Heq by apply integer_for_pretty.
  rewrite Heq. unfold saturate, LLONG_MIN, LLONG_MAX.
  assert (0 < 2 ^ 63) as Hpos by done.
  split; [done|]. split; [|split]; intros Hz.
  - f_equal. lia.
  - rewrite Z.min_r by lia. by rewrite Z.max_r by lia.
  - rewrite Z.min_l by lia. by rewrite Z.max_l by lia.
Qed.

(** ** Options that the integer block does not read *)

Lemma option_case_agree w l1 l2 out o l1' out' :
  agree_but_length_pad l1 l2 →
  option_case w (l1, out) o = Some (l1', out') →
  (not_length_or_pad o →
     ∃ l2', option_case w (l2, out) o = Some (l2', out')
            ∧ agree_but_length_pad l1' l2')
  ∧ (¬ not_length_or_pad o → agree_but_length_pad l1' l2 ∧ out' = out).
Proof.
  destruct o as [c optarg]. unfold agree_but_length_pad, not_length_or_pad.
  intros (Hfile & Hoffset & Htype & Hdata) Hcase. cbn [fst].
  unfold option_case in *. repeat case_decide; simplify_option_eq;
    (split; [intros [? ?]; try done; by eexists|intros Hnot; try done]);
    exfalso; apply Hnot; by split.
Qed.

Lemma scan_agree w argv : ∀ l1 l2 out l1' out',
  agree_but_length_pad l1 l2 →
  scan w (l1, out) argv = Some (l1', out') →
  ∃ l2', scan w (l2, out) (filter not_length_or_pad argv) = Some (l2', out')
         ∧ agree_but_length_pad l1' l2'.
Proof.
  induction argv as [|o argv IH]; intros l1 l2 out l1' out' Hagree Hscan.
  - injection Hscan as <- <-. by exists l2.
  - cbn [scan] in Hscan.
    destruct (option_case w (l1, out) o) as [[l1'' out'']|] eqn:Hcase;
      [|done].
    destruct (option_case_agree _ _ _ _ _ _ _ Hagree Hcase) as [Hkeep Hdrop].
    rewrite filter_cons. case_decide as Ho.
    + destruct (Hkeep Ho) as (l2'' & Hcase2 & Hagree2).
      cbn [scan]. rewrite Hcase2. by eapply IH.
    + destruct (Hdrop Ho) as [Hagree2 ->]. by eapply IH.
Qed.

Lemma patch_agree w l l' out :
  agree_but_length_pad l l' → m_type l ≠ type_str →
  patch w l out = patch w l' out.
Proof.
  destruct l, l'. unfold agree_but_length_pad. cbn.
  intros (-> & -> & -> & ->) Htype. unfold patch. cbn.
  repeat case_match; done.
Qed.

(** X22.  The length and the pad value are read in string mode only: when
    the kind that the options leave is an integer kind, the run without its
    [-l] and [-p] options is the same run (same exit status, output, calls
    on the stream and files). *)
Theorem integer_mode_ignores_length_and_pad w argv l out :
  scan w (initial, []) argv = Some (l, out) →
  m_type l ≠ type_str →
  main w (filter not_length_or_pad argv) = main w argv.
Proof.
  intros Hscan Htype. unfold main. rewrite Hscan.
  destruct (scan_agree w argv initial initial [] l out) as (l' & -> & Hagree);
    [done|done|].
  symmetry. by apply patch_agree.
Qed.

Lemma integer_mode_ignores_length_and_pad_witness :
  let argv :=
    [opt "f" "x"; opt "l" "3"; opt "t" "dw"; opt "p" "65"; opt "d" "258"] in
  filter not_length_or_pad argv = [opt "f" "x"; opt "t" "dw"; opt "d" "258"]
  ∧ main (host [7; 7; 7] 8) [opt "f" "x"; opt "t" "dw"; opt "d" "258"]
    = main (host [7; 7; 7] 8) argv
  ∧ files_after (main (host [7; 7; 7] 8) argv) !! chars "x"
    = Some [2; 1; 7].
Proof.
  cbv zeta. split; [by vm_compute|]. split; [|by vm_compute].
  refine (integer_mode_ignores_length_and_pad (host [7; 7; 7] 8)
    [opt "f" "x"; opt "l" "3"; opt "t" "dw"; opt "p" "65"; opt "d" "258"]
    {| m_file := Some [120; 0]; m_offset := 0; m_type := type_dw;
       m_length := 3; m_pad_value := 65; m_data_in := Some [50; 53; 56; 0] |}
    [] _ _); by vm_compute.
Defined.

(** ** Names of kinds *)

Lemma data_type_for_other arg :
  c_str arg ∉ [chars "dw"; chars "dd"; chars "dq"; chars "str"] →
  data_type_for arg = type_db.
Proof.
  intros Hother. unfold data_type_for.
  rewrite !elem_of_cons in Hother.
  repeat case_decide; try done; exfalso; apply Hother; tauto.
Qed.

(** X23.  A name of a kind that is none of [dw], [dd], [dq] and [str] (an
    unknown name, the empty name, a name in capitals) selects the byte
    kind and is not reported: the run is the run with [-t db]. *)
Theorem unknown_kind_is_byte w argv1 argv2 name :
  c_str name ∉ [chars "dw"; chars "dd"; chars "dq"; chars "str"] →
  main w (argv1 ++ (116, name) :: argv2)
    = main w (argv1 ++ (116, chars "db") :: argv2).
Proof.
  intros Hname. unfold main. rewrite !scan_app.
  destruct (scan w (initial, []) argv1) as [[l out]|]; [|done].
  cbn [mbind option_bind scan]. unfold option_case.
  rewrite !decide_False, !decide_True by done.
  rewrite (data_type_for_other (argument name))
    by (by rewrite c_str_argument).
  rewrite (data_type_for_other (argument (chars "db"))); [done|].
  vm_compute. intros Hin.
  repeat (apply elem_of_cons in Hin as [Hin|Hin]; [discriminate Hin|]).
  by apply elem_of_nil in Hin.
Qed.

Lemma unknown_kind_is_byte_witness :
  main (host [7; 7] 8) ([opt "f" "x"] ++ opt "t" "DW" :: [opt "d" "258"])
    = main (host [7; 7] 8) ([opt "f" "x"] ++ opt "t" "db" :: [opt "d" "258"])
  ∧ files_after
      (main (host [7; 7] 8) ([opt "f" "x"] ++ opt "t" "DW" :: [opt "d" "258"]))
      !! chars "x" = Some [2; 7].
Proof.
  split; [|by vm_compute].
  apply (unknown_kind_is_byte (host [7; 7] 8) [opt "f" "x"] [opt "d" "258"]
           (chars "DW")).
  vm_compute. intros Hin. repeat (apply elem_of_cons in Hin as [Hin|Hin];
    [discriminate Hin|]). by apply elem_of_nil in Hin.
Defined.
